(** * Structure Block Exporter: a shallow embedding and its properties

    The development follows [structure_block_exporter.py]:
    - Python integers are [Z] (unbounded), list indices and lengths are [nat];
    - Python floats are IEEE binary64 values, [spec_float] at precision 53;
    - a string is a sequence of the code points U+0000 to U+00FF, one per
      character; [str.lower], [str.strip] and [str.isdigit] are Python's on
      these code points, and [int(str)] and [float(str)] are taken from the
      runtime;
    - NBT tags are a tagged tree, a compound being the list of its items in
      the dictionary's iteration order; the integer tags share [TInt], the
      two float tags share [TFloat], and array tags are left out;
    - the diagnostic printing of debug mode, which returns nothing, is left
      out;
    - exceptions are an explicit [result] type, and the mutable palette, the
      block list and the host state are passed explicitly. *)

From Stdlib Require Import ZArith QArith SpecFloat Ascii String.
From stdpp Require Import gmap strings list sorting pretty.

Set Warnings "-register-all,-clear-no-such-hyp".

Local Open Scope Z_scope.
Local Open Scope string_scope.

(** ** Exceptions *)

Inductive exn : Type :=
  | ChunkLoadError
  | OverflowError
  | OtherError (msg : string).

Inductive result (A : Type) : Type :=
  | Ok (a : A)
  | Raise (e : exn).
Arguments Ok {A} a.
Arguments Raise {A} e.

Global Instance result_ret : MRet result := λ A a, Ok a.
Global Instance result_bind : MBind result := λ A B k r,
  match r with
  | Ok a => k a
  | Raise e => Raise e
  end.

(** [for l: s = body(a, s)], leaving the loop at the first exception. *)
Fixpoint for_each {A S} (l : list A) (body : A → S → result S) (s : S)
  : result S :=
  match l with
  | [] => Ok s
  | a :: l' => s' ← body a s; for_each l' body s'
  end.

(** [range(a, b)] *)
Definition range (a b : Z) : list Z := seqZ a (b - a).

(** ** NBT trees *)

Inductive tag : Type :=
  | TInt (z : Z)
  | TFloat (f : spec_float)
  | TStr (s : string)
  | TList (items : list tag)
  | TCompound (items : list (string * tag)).

(** ** Voxel types

    The attributes are read with [getattr(block, name, default)], so each of
    them may be absent. [properties] is a dictionary, listed in its iteration
    order; keys and values are taken after [str(...)]. *)

Record Block : Type := {
  namespace : option string;
  base_name : option string;
  properties : option (list (string * string));
}.

Definition getattr {A} (o : option A) (dflt : A) : A := default dflt o.

(** Python's order on [(str, str)] tuples: the first components decide unless
    they are equal. *)
Definition pair_leb (p q : string * string) : bool :=
  if decide (p.1 = q.1) then String.leb p.2 q.2 else String.leb p.1 q.1.

Definition pair_le (p q : string * string) : Prop := Is_true (pair_leb p q).

Global Instance pair_le_dec : RelDecision pair_le :=
  λ p q, Is_true_dec (pair_leb p q).

Definition sorted_items (props : list (string * string))
  : list (string * string) := merge_sort pair_le props.

Definition StateKey : Type := string * list (string * string).

Definition qualified_name (block : Block) : string :=
  getattr (namespace block) "minecraft" +:+ ":" +:+ getattr (base_name block) "air".

Definition _state_key (block : Block) : StateKey :=
  let props := getattr (properties block) [] in
  (qualified_name block, sorted_items props).

Definition _universal_block_to_java_state (block : Block) : tag :=
  let name := qualified_name block in
  let props := getattr (properties block) [] in
  match props with
  | [] => TCompound [("Name", TStr name)]
  | _ :: _ =>
      TCompound [("Name", TStr name);
                 ("Properties", TCompound (map (λ kv, (kv.1, TStr kv.2)) props))]
  end.

(** ** The palette builder

    [palette] and [palette_index] are the two locals of
    [_export_java_structure_nbt] that [get_state_index] closes over. *)

Record PaletteSt : Type := {
  palette : list tag;
  palette_index : gmap StateKey nat;
}.

Definition palette_empty : PaletteSt :=
  {| palette := []; palette_index := ∅ |}.

Definition get_state_index (block : Block) (st : PaletteSt) : nat * PaletteSt :=
  let key := _state_key block in
  match palette_index st !! key with
  | Some idx => (idx, st)
  | None =>
      let idx := length (palette st) in
      (idx, {| palette := palette st ++ [_universal_block_to_java_state block];
               palette_index := <[key := idx]> (palette_index st) |})
  end.

(** Pushing a sequence of states through one builder, collecting the
    returned indices. *)
Fixpoint push_all (blocks : list Block) (st : PaletteSt) : list nat * PaletteSt :=
  match blocks with
  | [] => ([], st)
  | b :: bs =>
      let '(i, st1) := get_state_index b st in
      let '(idxs, st2) := push_all bs st1 in
      (i :: idxs, st2)
  end.

(** The distinct elements of a list, in the order of their first occurrence. *)
Fixpoint first_seen_from {K} `{EqDecision K} (acc ks : list K) : list K :=
  match ks with
  | [] => acc
  | k :: ks' =>
      first_seen_from (if decide (k ∈ acc) then acc else acc ++ [k]) ks'
  end.

Definition first_seen {K} `{EqDecision K} (ks : list K) : list K :=
  first_seen_from [] ks.

(** ** Strings *)

(** [c.lower()]: the letters A to Z, and U+00C0 to U+00DE without the
    multiplication sign U+00D7, go 32 up. *)
Definition ascii_lower (c : ascii) : ascii :=
  let n := N_of_ascii c in
  if (((65 <=? n) && (n <=? 90)) ||
      ((192 <=? n) && (n <=? 222) && negb (n =? 215)))%N
  then ascii_of_N (n + 32) else c.

(** [s.lower()] *)
Fixpoint lower (s : string) : string :=
  match s with
  | EmptyString => EmptyString
  | String c s' => String (ascii_lower c) (lower s')
  end.

(** [sub in s] *)
Fixpoint contains (sub s : string) : bool :=
  String.prefix sub s ||
  match s with
  | EmptyString => false
  | String _ s' => contains sub s'
  end.

(** [c.isspace()]: U+0009 to U+000D, U+001C to U+0020, U+0085 and
    U+00A0 *)
Definition py_isspace (c : ascii) : bool :=
  let n := N_of_ascii c in
  (((9 <=? n) && (n <=? 13)) || ((28 <=? n) && (n <=? 32)) ||
   (n =? 133) || (n =? 160))%N.

Fixpoint lstrip (s : string) : string :=
  match s with
  | EmptyString => EmptyString
  | String c s' => if py_isspace c then lstrip s' else s
  end.

(** [s.strip()] *)
Definition strip (s : string) : string :=
  String.rev (lstrip (String.rev (lstrip s))).

(** [str(i)] for a list index *)
Definition str_of_nat (i : nat) : string := pretty i.

(** ** Floats *)

Definition prec : Z := 53.
Definition emax : Z := 1024.

Definition signed (s : bool) (m : Z) : Z := if s then - m else m.

(** [int(f)]: truncation toward zero; [None] where Python raises (NaN and
    the infinities). *)
Definition py_int_of_float (f : spec_float) : option Z :=
  match f with
  | S754_zero _ => Some 0
  | S754_finite s m e => Some (signed s (Z.shiftl (Z.pos m) e))
  | S754_infinity _ | S754_nan => None
  end.

(** [int(f)] where it is not guarded by a [try] *)
Definition int_of_float (f : spec_float) : result Z :=
  match py_int_of_float f with
  | Some n => Ok n
  | None =>
      match f with
      | S754_nan => Raise (OtherError "ValueError")
      | _ => Raise OverflowError
      end
  end.

(** The mathematical floor of a finite float. *)
Definition float_floor (f : spec_float) : option Z :=
  match f with
  | S754_zero _ => Some 0
  | S754_finite s m e => Some (Z.shiftl (signed s (Z.pos m)) e)
  | S754_infinity _ | S754_nan => None
  end.

(** Exact comparison of a float with an integer, as Python compares an
    [int] with a [float]; [None] for NaN. *)
Definition float_cmp_Z (f : spec_float) (n : Z) : option comparison :=
  match f with
  | S754_nan => None
  | S754_infinity s => Some (if s then Lt else Gt)
  | S754_zero _ => Some (0 ?= n)%Z
  | S754_finite s m e =>
      if (0 <=? e)%Z then Some (signed s (Z.pos m * 2 ^ e) ?= n)%Z
      else Some (signed s (Z.pos m) ?= n * 2 ^ (- e))%Z
  end.

(** [n <= f] *)
Definition Z_le_float (n : Z) (f : spec_float) : bool :=
  match float_cmp_Z f n with
  | Some Eq | Some Gt => true
  | _ => false
  end.

(** [f < n] *)
Definition float_lt_Z (f : spec_float) (n : Z) : bool :=
  match float_cmp_Z f n with
  | Some Lt => true
  | _ => false
  end.

(** [float(n)]: the nearest binary64, [OverflowError] beyond its range. *)
Definition float_of_Z (n : Z) : result spec_float :=
  match binary_normalize prec emax n 0 false with
  | S754_infinity _ => Raise OverflowError
  | f => Ok f
  end.

(** [f - n] for a float [f] and an int [n] *)
Definition float_sub_Z (f : spec_float) (n : Z) : result spec_float :=
  g ← float_of_Z n; mret (SFsub prec emax f g).

(** ** Regions *)

Definition Position : Type := Z * Z * Z.

Record SelectionBox : Type := {
  min_x : Z; min_y : Z; min_z : Z;
  max_x : Z; max_y : Z; max_z : Z;
}.

(** [b.min_x <= x < b.max_x and b.min_y <= y < b.max_y and ...] on integers *)
Definition in_box (b : SelectionBox) (x y z : Z) : bool :=
  ((min_x b <=? x) && (x <? max_x b) &&
   (min_y b <=? y) && (y <? max_y b) &&
   (min_z b <=? z) && (z <? max_z b))%Z.

(** The same chained comparison on a float position *)
Definition float_in_box (b : SelectionBox) (ex ey ez : spec_float) : bool :=
  Z_le_float (min_x b) ex && float_lt_Z ex (max_x b) &&
  Z_le_float (min_y b) ey && float_lt_Z ey (max_y b) &&
  Z_le_float (min_z b) ez && float_lt_Z ez (max_z b).

(** ** What the exporter takes from its runtime

    [int(str)] and [float(str)] are Python's parsers ([None] where they
    raise); [chunk_locations] is the host's enumeration of the chunks that
    a selection touches, in the order it iterates them.
    [box_beyond_int64 p1 p2] is what the host's [SelectionBox(p1, p2)] does
    when a coordinate is outside the signed 64-bit range, where its array
    conversion wraps the corner or raises. [copy_and_delete_work t] tells
    whether [t.copy()], [k in t] and [del t[k]] go through on the tag of a
    block entity, as they do on a compound tag and do not on a tag that
    wraps one. *)

Class Runtime : Type := {
  py_int_of_str : string → option Z;
  py_float_of_str : string → option spec_float;
  chunk_locations : list SelectionBox → list (Z * Z);
  box_beyond_int64 : Position → Position → result SelectionBox;
  copy_and_delete_work : tag → bool;
}.

Definition in_int64 (z : Z) : bool := ((- 2 ^ 63 <=? z) && (z <? 2 ^ 63))%Z.

Definition point_in_int64 (p : Position) : bool :=
  in_int64 p.1.1 && in_int64 p.1.2 && in_int64 p.2.

(** [SelectionBox(p1, p2)]: within the signed 64-bit range the host's
    constructor orders the two corners axis by axis. *)
Definition mkSelectionBox `{Runtime} (p1 p2 : Position) : result SelectionBox :=
  if point_in_int64 p1 && point_in_int64 p2 then
    let '(x1, y1, z1) := p1 in
    let '(x2, y2, z2) := p2 in
    Ok {| min_x := Z.min x1 x2; min_y := Z.min y1 y2; min_z := Z.min z1 z2;
          max_x := Z.max x1 x2; max_y := Z.max y1 y2; max_z := Z.max z1 z2 |}
  else box_beyond_int64 p1 p2.

(** ** NBT traversal and fuzzy lookup *)

(** [getattr(v, "value", v)] followed by [int(...)]; [None] where [int]
    raises. *)
Definition int_of_value `{Runtime} (v : tag) : option Z :=
  match v with
  | TInt z => Some z
  | TFloat f => py_int_of_float f
  | TStr s => py_int_of_str s
  | TList _ | TCompound _ => None
  end.

(** [hasattr(v, "keys")], true of a compound; or else
    [v.tag_id == nbt.TAG_List or isinstance(v, (list, tuple))]: the first
    compares the integer id of the tag with the list tag's class and the
    second asks for a Python list, so both are false of every tag, a list
    tag included. *)
Definition descends (v : tag) : bool :=
  match v with
  | TCompound _ => true
  | _ => false
  end.

(** The generator, as the list of the triples [(path, key, value)] it yields.
    A list tag is enumerated when it is the tag the generator is called on.
    A scalar has neither [keys()] nor an iteration: nothing is yielded. *)
Fixpoint _iter_nbt_tree (t : tag) (prefix : string)
  : list (string * string * tag) :=
  match t with
  | TCompound items =>
      (fix over_keys (items : list (string * tag)) :=
         match items with
         | [] => []
         | (k, v) :: rest =>
             let path :=
               if decide (prefix = "") then k else prefix +:+ "/" +:+ k in
             (path, k, v) ::
             (if descends v then _iter_nbt_tree v path else []) ++
             over_keys rest
         end) items
  | TList items =>
      (fix enumerate (i : nat) (items : list tag) :=
         match items with
         | [] => []
         | v :: rest =>
             let path := prefix +:+ "[" +:+ str_of_nat i +:+ "]" in
             (path, str_of_nat i, v) ::
             (if descends v then _iter_nbt_tree v path else []) ++
             enumerate (S i) rest
         end) 0%nat items
  | TInt _ | TFloat _ | TStr _ => []
  end.

(** [any(s in lk for s in key_substrings)] with [lk = str(k).lower()] *)
Definition key_matches (key_substrings : list string) (k : string) : bool :=
  existsb (λ s, contains s (lower k)) key_substrings.

(** The loop of [_find_first_str] over the yielded triples *)
Fixpoint first_str_loop (key_substrings : list string)
    (yielded : list (string * string * tag)) : option string :=
  match yielded with
  | [] => None
  | (_, k, v) :: rest =>
      if key_matches key_substrings k then
        match v with
        | TStr val =>
            if decide (strip val = "") then first_str_loop key_substrings rest
            else Some (strip val)
        | _ => first_str_loop key_substrings rest
        end
      else first_str_loop key_substrings rest
  end.

Definition _find_first_str (t : tag) (key_substrings : list string)
  : option string :=
  first_str_loop key_substrings (_iter_nbt_tree t "").

(** The loop of [_find_first_int]: a value on which [int] raises is passed
    over with [continue]. *)
Fixpoint first_int_loop `{Runtime} (key_substrings : list string)
    (yielded : list (string * string * tag)) : option Z :=
  match yielded with
  | [] => None
  | (_, k, v) :: rest =>
      if key_matches key_substrings k then
        match int_of_value v with
        | Some n => Some n
        | None => first_int_loop key_substrings rest
        end
      else first_int_loop key_substrings rest
  end.

Definition _find_first_int `{Runtime} (t : tag) (key_substrings : list string)
  : option Z :=
  first_int_loop key_substrings (_iter_nbt_tree t "").

(** ** Marker records *)

Record MarkerData : Type := {
  name : string;
  offset : Z * Z * Z;
  size : Z * Z * Z;
}.

Definition _parse_structure_block `{Runtime} (t : tag) : option MarkerData :=
  match _find_first_str t ["structurename"; "structure_name"; "name"; "identifier"] with
  | None => None
  | Some name =>
      let ox := _find_first_int t ["xstructureoffset"; "structureoffsetx"; "offsetx"; "posx"] in
      let oy := _find_first_int t ["ystructureoffset"; "structureoffsety"; "offsety"; "posy"] in
      let oz := _find_first_int t ["zstructureoffset"; "structureoffsetz"; "offsetz"; "posz"] in
      let sx := _find_first_int t ["xstructuresize"; "structuresizex"; "sizex"; "size_x"] in
      let sy := _find_first_int t ["ystructuresize"; "structuresizey"; "sizey"; "size_y"] in
      let sz := _find_first_int t ["zstructuresize"; "structuresizez"; "sizez"; "size_z"] in
      match ox, oy, oz, sx, sy, sz with
      | Some ox, Some oy, Some oz, Some sx, Some sy, Some sz =>
          if ((sx <=? 0) || (sy <=? 0) || (sz <=? 0))%Z then None
          else Some {| name := name; offset := (ox, oy, oz); size := (sx, sy, sz) |}
      | _, _, _, _, _, _ => None
      end
  end.

(** ** The world accessor *)

Record BlockEntity : Type := { nbt : option tag }.

Record Entity : Type := { entity_nbt : option tag }.

(** [block_entities] is a mapping from positions, listed in its iteration
    order; both attributes are read with [getattr(chunk, ..., None)]. *)
Record Chunk : Type := {
  block_entities : option (list (Position * BlockEntity));
  entities : option (list Entity);
}.

Record World : Type := {
  get_block : Z → Z → Z → result Block;
  get_chunk : Z → Z → result Chunk;
}.

(** [try: chunk = world.get_chunk(...) except ChunkLoadError: continue],
    around the rest of the loop body *)
Definition with_chunk {S} (world : World) (cx cz : Z)
    (body : Chunk → S → result S) (s : S) : result S :=
  match get_chunk world cx cz with
  | Ok chunk => body chunk s
  | Raise ChunkLoadError => Ok s
  | Raise e => Raise e
  end.

(** ** Marker discovery *)

Definition _is_structure_block (world : World) (x y z : Z) : bool :=
  match get_block world x y z with
  | Ok blk => bool_decide (base_name blk = Some "structure_block")
  | Raise _ => false
  end.

Definition in_any_box (boxes : list SelectionBox) (x y z : Z) : bool :=
  existsb (λ b, in_box b x y z) boxes.

Definition Found : Type := Position * tag * option MarkerData.

(** One iteration of [for (x, y, z), be in bes.items()] *)
Definition visit_block_entity `{Runtime} (world : World)
    (boxes : list SelectionBox) (item : Position * BlockEntity)
    (out : list Found) : list Found :=
  let '((x, y, z), be) := item in
  if negb (in_any_box boxes x y z) then out
  else if negb (_is_structure_block world x y z) then out
  else match nbt be with
       | None => out
       | Some t => out ++ [((x, y, z), t, _parse_structure_block t)]
       end.

Definition _iter_structure_blocks `{Runtime} (world : World)
    (selection : list SelectionBox) : result (list Found) :=
  for_each (chunk_locations selection)
    (λ '(cx, cz), with_chunk world cx cz (λ chunk out,
       let bes := getattr (block_entities chunk) [] in
       Ok (foldl (λ out item, visit_block_entity world selection item out)
                 out bes)))
    [].

(** [[((x, y, z), data) for ((x, y, z), _tag, data) in found if data is not None]] *)
Definition resolved (found : list Found) : list (Position * MarkerData) :=
  omap (λ '(p, _, data), pair p <$> data) found.

(** ** Export: structure template *)

Record BlockEntry : Type := {
  pos : Z * Z * Z;
  state : nat;
  extra : option tag;
}.

Record EntityEntry : Type := {
  entity_pos : spec_float * spec_float * spec_float;
  blockPos : Z * Z * Z;
  entity_data : tag;
}.

Record StructureDocument : Type := {
  doc_size : Z * Z * Z;
  doc_palette : list tag;
  doc_blocks : list BlockEntry;
  doc_entities : list EntityEntry;
}.

Definition _collect_block_entities_in_box `{Runtime} (world : World)
    (box : SelectionBox) : result (gmap Position BlockEntity) :=
  for_each (chunk_locations [box])
    (λ '(cx, cz), with_chunk world cx cz (λ chunk out,
       let bes := getattr (block_entities chunk) [] in
       Ok (foldl (λ out '((x, y, z), be),
                    if in_box box x y z then <[(x, y, z) := be]> out else out)
                 out bes)))
    ∅.

(** [tag = tag.copy()] and the deletion of the keys ["x"], ["y"], ["z"],
    inside [try ... except Exception: pass]: where they do not go through,
    [tag] is still the tag of the block entity. A tag that is not a compound
    has no key to delete. *)
Definition strip_xyz `{Runtime} (t : tag) : tag :=
  match t with
  | TCompound items =>
      if copy_and_delete_work t
      then TCompound (filter (λ kv, kv.1 ∉ ["x"; "y"; "z"]) items)
      else t
  | _ => t
  end.

(** [getattr(blk, "base_name", "air") == "air"] *)
Definition is_air (blk : Block) : bool :=
  bool_decide (getattr (base_name blk) "air" = "air").

(** The body of the innermost loop; the state is the palette and the
    block list. *)
Definition visit_voxel `{Runtime} (world : World) (box : SelectionBox)
    (be_map : gmap Position BlockEntity) (remove_blocks : bool) (x y z : Z)
    (s : PaletteSt * list BlockEntry) : result (PaletteSt * list BlockEntry) :=
  if remove_blocks then Ok s
  else
    blk ← get_block world x y z;
    if is_air blk then Ok s
    else
      let '(state_idx, pal) := get_state_index blk s.1 in
      let rel := (x - min_x box, y - min_y box, z - min_z box) in
      let attached :=
        match be_map !! (x, y, z) with
        | Some be => strip_xyz <$> nbt be
        | None => None
        end in
      Ok (pal, (s.2 ++ [{| pos := rel; state := state_idx; extra := attached |}])%list).

Definition scan_box `{Runtime} (world : World) (box : SelectionBox)
    (be_map : gmap Position BlockEntity) (remove_blocks : bool)
  : result (PaletteSt * list BlockEntry) :=
  for_each (range (min_y box) (max_y box)) (λ y,
    for_each (range (min_z box) (max_z box)) (λ z,
      for_each (range (min_x box) (max_x box)) (λ x,
        visit_voxel world box be_map remove_blocks x y z)))
    (palette_empty, []).

(** [float(v.value)] for one component of ["Pos"]; [None] where it raises. *)
Definition float_of_value `{Runtime} (v : tag) : option spec_float :=
  match v with
  | TFloat f => Some f
  | TInt z => match float_of_Z z with Ok f => Some f | Raise _ => None end
  | TStr s => py_float_of_str s
  | TList _ | TCompound _ => None
  end.

(** [dict.get] on a compound *)
Fixpoint compound_get (items : list (string * tag)) (k : string) : option tag :=
  match items with
  | [] => None
  | (k', v) :: rest => if decide (k' = k) then Some v else compound_get rest k
  end.

(** The [try] block reading ["Pos"]: [None] stands for every way it ends in
    [continue]. *)
Definition entity_position `{Runtime} (ent_nbt : tag)
  : option (spec_float * spec_float * spec_float) :=
  match ent_nbt with
  | TCompound items =>
      match compound_get items "Pos" with
      | Some (TList [a; b; c]) =>
          ex ← float_of_value a;
          ey ← float_of_value b;
          ez ← float_of_value c;
          Some (ex, ey, ez)
      | _ => None
      end
  | _ => None
  end.

(** One iteration of [for ent in ents] *)
Definition visit_entity `{Runtime} (box : SelectionBox) (ent : Entity)
    (entities_list : list EntityEntry) : result (list EntityEntry) :=
  match entity_nbt ent with
  | None => Ok entities_list
  | Some ent_nbt =>
      match entity_position ent_nbt with
      | None => Ok entities_list
      | Some (ex, ey, ez) =>
          if negb (float_in_box box ex ey ez) then Ok entities_list
          else
            rx ← float_sub_Z ex (min_x box);
            ry ← float_sub_Z ey (min_y box);
            rz ← float_sub_Z ez (min_z box);
            ix ← int_of_float ex;
            iy ← int_of_float ey;
            iz ← int_of_float ez;
            let bx := ix - min_x box in
            let by_ := iy - min_y box in
            let bz := iz - min_z box in
            Ok (entities_list ++
                [{| entity_pos := (rx, ry, rz); blockPos := (bx, by_, bz);
                    entity_data := ent_nbt |}])%list
      end
  end.

Definition collect_entities `{Runtime} (world : World) (box : SelectionBox)
  : result (list EntityEntry) :=
  for_each (chunk_locations [box])
    (λ '(cx, cz), with_chunk world cx cz (λ chunk entities_list,
       for_each (getattr (entities chunk) []) (visit_entity box) entities_list))
    [].

(** [_export_java_structure_nbt] up to the document it hands to the
    serializer. The constructors of the tag library that wrap the entries
    and the document are taken to accept what they are given. *)
Definition build_structure_document `{Runtime} (world : World)
    (box : SelectionBox) (include_entities remove_blocks : bool)
  : result StructureDocument :=
  let sx := max_x box - min_x box in
  let sy := max_y box - min_y box in
  let sz := max_z box - min_z box in
  be_map ← _collect_block_entities_in_box world box;
  scanned ← scan_box world box be_map remove_blocks;
  entities_list ←
    (if include_entities then collect_entities world box else Ok []);
  Ok {| doc_size := (sx, sy, sz);
        doc_palette := palette scanned.1;
        doc_blocks := scanned.2;
        doc_entities := entities_list |}.

(** ** The operation entry point *)

(** [identifier.split(":", 1)[1]] when there is a colon *)
Fixpoint after_colon (s : string) : option string :=
  match s with
  | EmptyString => None
  | String c s' => if decide (c = ":"%char) then Some s' else after_colon s'
  end.

Definition _strip_namespace (identifier : string) : string :=
  default identifier (after_colon identifier).

(** The file system and the two writers, over a host state [Host]:
    - [makedirs_for out_path] is [os.makedirs(os.path.dirname(out_path),
      exist_ok=True)];
    - [save_to] is the tree serializer;
    - [_export_mcstructure] stands for the session with the external
      chunk-container encoder;
    - [_unique_path] and [_safe_filename] are the naming helpers. *)
Class HostIO (Host : Type) : Type := {
  makedirs_for : string → Host → Host * result ();
  save_to : string → StructureDocument → Host → Host * result ();
  _export_mcstructure :
    World → list SelectionBox → string → bool → string → Host → Host * result ();
  _unique_path : string → string → Host → string;
  _safe_filename : string → string;
}.

Definition _export_java_structure_nbt `{Runtime} `{HostIO Host}
    (world : World) (box : SelectionBox) (out_path : string)
    (include_entities remove_blocks : bool) (h : Host) : Host * result () :=
  match makedirs_for out_path h with
  | (h1, Raise e) => (h1, Raise e)
  | (h1, Ok _) =>
      match build_structure_document world box include_entities remove_blocks with
      | Raise e => (h1, Raise e)
      | Ok root => save_to out_path root h1
      end
  end.

Record Options : Type := {
  out_dir : string;
  include_entities : bool;
  remove_blocks : bool;
  bedrock_version_str : string;
  format_field : string;
}.

(** [fmt_raw], after [.strip().lower()] and the fallback *)
Definition fmt_raw (options : Options) : string :=
  let f := lower (strip (format_field options)) in
  if decide (f ∈ ["mcstructure"; "nbt"]) then f else "mcstructure".

(** The box of one record, as the loop body computes it *)
Definition marker_box `{Runtime} (p : Position) (data : MarkerData)
  : result SelectionBox :=
  let '(bx, by_, bz) := p in
  let '(ox, oy, oz) := offset data in
  let '(sx, sy, sz) := size data in
  let min_x := bx + ox in
  let min_y := by_ + oy in
  let min_z := bz + oz in
  let max_x := min_x + sx in
  let max_y := min_y + sy in
  let max_z := min_z + sz in
  mkSelectionBox (min_x, min_y, min_z) (max_x, max_y, max_z).

(** What the entry point prints: the two lines of a run that resolves no
    marker, the line before the loop, and the line of a record. *)
Inductive LogLine : Type :=
  | NoneFound
  | Tip
  | Exporting (total : nat) (out_dir fmt : string)
  | Exported (i total : nat) (fmt out_path : string)
  | Failed (i total : nat) (name : string) (p : Position) (e : exn).

(** The statements inside [try:]; they end with the path written, or with
    an exception. *)
Definition export_attempt `{Runtime} `{HostIO Host} (world : World)
    (options : Options) (box : SelectionBox) (safe : string) (h : Host)
  : Host * result string :=
  if decide (fmt_raw options = "mcstructure") then
    let out_path := _unique_path (out_dir options) (safe +:+ ".mcstructure") h in
    match _export_mcstructure world [box] out_path (include_entities options)
            (bedrock_version_str options) h with
    | (h1, Ok _) => (h1, Ok out_path)
    | (h1, Raise e) => (h1, Raise e)
    end
  else
    let out_path := _unique_path (out_dir options) (safe +:+ ".nbt") h in
    match _export_java_structure_nbt world box out_path
            (include_entities options) (remove_blocks options) h with
    | (h1, Ok _) => (h1, Ok out_path)
    | (h1, Raise e) => (h1, Raise e)
    end.

(** [i / total]: the exact quotient; the float that Python yields is the
    binary64 nearest to it. *)
Definition progress (i total : nat) : Q := Z.of_nat i # Pos.of_nat total.

(** The state of a run: the host, the lines that the entry point has
    printed itself, and the values yielded so far. *)
Record Run (Host : Type) : Type := {
  host : Host;
  printed : list LogLine;
  yielded : list Q;
}.
Arguments host {Host} _.
Arguments printed {Host} _.
Arguments yielded {Host} _.

(** One iteration of [for i, ((bx, by, bz), data) in enumerate(parsed, start=1)]:
    the box is built before the [try], so an exception of its constructor
    is the result of the iteration; then the [try ... except Exception] and
    the [yield]. *)
Definition export_record `{Runtime} `{HostIO Host} (world : World)
    (options : Options) (total i : nat) (record : Position * MarkerData)
    (run : Run Host) : result (Run Host) :=
  let '(p, data) := record in
  box ← marker_box p data;
  let safe := _safe_filename (_strip_namespace (name data)) in
  let '(h1, line) :=
    match export_attempt world options box safe (host run) with
    | (h1, Ok out_path) => (h1, Exported i total (fmt_raw options) out_path)
    | (h1, Raise e) => (h1, Failed i total (name data) p e)
    end in
  Ok {| host := h1;
        printed := printed run ++ [line];
        yielded := yielded run ++ [progress i total] |}.

(** The loop: the run when it ends, with the exception that ended it if
    one did. *)
Fixpoint export_loop `{Runtime} `{HostIO Host} (world : World)
    (options : Options) (total i : nat) (parsed : list (Position * MarkerData))
    (run : Run Host) : Run Host * option exn :=
  match parsed with
  | [] => (run, None)
  | record :: rest =>
      match export_record world options total i record run with
      | Ok run' => export_loop world options total (S i) rest run'
      | Raise e => (run, Some e)
      end
  end.

(** [os.makedirs(out_dir)] and the lines of the debug option apart, the
    generator: an exception of the discovery leaves it before anything is
    printed; an empty [parsed] prints its two lines and returns without a
    yield. *)
Definition export_structures_from_structure_blocks `{Runtime} `{HostIO Host}
    (world : World) (selection : list SelectionBox) (options : Options)
    (h : Host) : Run Host * option exn :=
  match _iter_structure_blocks world selection with
  | Raise e => ({| host := h; printed := []; yielded := [] |}, Some e)
  | Ok found =>
      let parsed := resolved found in
      match parsed with
      | [] => ({| host := h; printed := [NoneFound; Tip]; yielded := [] |}, None)
      | _ :: _ =>
          let total := length parsed in
          export_loop world options total 1 parsed
            {| host := h;
               printed := [Exporting total (out_dir options) (fmt_raw options)];
               yielded := [] |}
      end
  end.

(** ** Specification-side definitions

    These follow the words of the specification; the theorems below compare
    them with the definitions above. *)

(** The equality rule of the palette: the same name [namespace:base_name],
    [minecraft] and [air] standing for an absent part, and the same property
    pairs in whatever order, absent properties being none. *)
Definition same_state (b b' : Block) : Prop :=
  default "minecraft" (namespace b) +:+ ":" +:+ default "air" (base_name b)
    = default "minecraft" (namespace b') +:+ ":" +:+ default "air" (base_name b') ∧
  default [] (properties b) ≡ₚ default [] (properties b').

(** A state of [bs] at position [j] that no earlier push equals *)
Definition novel_at (bs : list Block) (j : nat) (b : Block) : Prop :=
  bs !! j = Some b ∧
  ∀ j' b', (j' < j)%nat → bs !! j' = Some b' → ¬ same_state b' b.

(** The yield order of the locator: depth-first, each child's key and value
    before the child's own descendants, a compound's children in iteration
    order and a sequence's children by index. *)
Fixpoint walk (t : tag) : list (string * tag) :=
  match t with
  | TCompound items =>
      (fix children (items : list (string * tag)) :=
         match items with
         | [] => []
         | (k, v) :: rest => (k, v) :: walk v ++ children rest
         end) items
  | TList items =>
      (fix children (i : nat) (items : list tag) :=
         match items with
         | [] => []
         | v :: rest => (str_of_nat i, v) :: walk v ++ children (S i) rest
         end) 0%nat items
  | TInt _ | TFloat _ | TStr _ => []
  end.

(** A node that [find_first_string] accepts, with what it returns for it *)
Definition accepted_str (key_substrings : list string) (kv : string * tag)
  : option string :=
  if key_matches key_substrings kv.1 then
    match kv.2 with
    | TStr val => if decide (strip val = "") then None else Some (strip val)
    | _ => None
    end
  else None.

(** A node that [find_first_int] accepts, with its integer *)
Definition accepted_int `{Runtime} (key_substrings : list string)
    (kv : string * tag) : option Z :=
  if key_matches key_substrings kv.1 then int_of_value kv.2 else None.

(** The voxels of a box in Y-major, then Z, then X order *)
Definition scan_order (box : SelectionBox) : list Position :=
  y ← range (min_y box) (max_y box);
  z ← range (min_z box) (max_z box);
  x ← range (min_x box) (max_x box);
  [(x, y, z)].

(** The block entry of a voxel, given its palette index *)
Definition block_entry `{Runtime} (box : SelectionBox)
    (be_map : gmap Position BlockEntity) (p : Position) (idx : nat)
  : BlockEntry :=
  let '(x, y, z) := p in
  {| pos := (x - min_x box, y - min_y box, z - min_z box);
     state := idx;
     extra := be ← be_map !! p; strip_xyz <$> nbt be |}.

(** The code points of the white space that trimming removes: tab to
    carriage return, the four separators, the space, next line and the
    no-break space *)
Definition white_space : list N :=
  [9; 10; 11; 12; 13; 28; 29; 30; 31; 32; 133; 160]%N.

(** A point whose coordinates are signed 64-bit integers *)
Definition in_int64_range (q : Position) : Prop :=
  (- 2 ^ 63 ≤ q.1.1 < 2 ^ 63 ∧ - 2 ^ 63 ≤ q.1.2 < 2 ^ 63 ∧
   - 2 ^ 63 ≤ q.2 < 2 ^ 63)%Z.

(** The half-open box [[lo, lo + extent)] *)
Definition in_half_open (lo extent : Position) (x y z : Z) : Prop :=
  let '(lx, ly, lz) := lo in
  let '(ex, ey, ez) := extent in
  lx ≤ x < lx + ex ∧ ly ≤ y < ly + ey ∧ lz ≤ z < lz + ez.

(** ** A runtime and a world for examples *)

Fixpoint digits_value (acc : Z) (s : string) : option Z :=
  match s with
  | EmptyString => Some acc
  | String c s' => d ← Ascii.is_nat c; digits_value (10 * acc + Z.of_nat d) s'
  end.

(** Plain decimal numerals only; the chunks of a selection are listed box
    by box, by X and then by Z; a box with a coordinate beyond the signed
    64-bit range is refused, as the host refuses a coordinate of more than
    64 bits; the tag of a block entity is a compound tag, which is copied
    and edited. *)
Definition sample_runtime : Runtime := {|
  py_int_of_str s :=
    match strip s with
    | EmptyString => None
    | s' => digits_value 0 s'
    end;
  py_float_of_str _ := None;
  chunk_locations boxes :=
    remove_dups
      (b ← boxes;
       cx ← range (min_x b ≫ 4) (((max_x b - 1) ≫ 4) + 1);
       cz ← range (min_z b ≫ 4) (((max_z b - 1) ≫ 4) + 1);
       [(cx, cz)]);
  box_beyond_int64 _ _ := Raise (OtherError "TypeError");
  copy_and_delete_work _ := true;
|}.

Definition stone : Block :=
  {| namespace := Some "universal_minecraft"; base_name := Some "stone";
     properties := Some [] |}.

Definition air : Block :=
  {| namespace := Some "universal_minecraft"; base_name := Some "air";
     properties := Some [] |}.

Definition marker_block (ns : string) : Block :=
  {| namespace := Some ns; base_name := Some "structure_block";
     properties := Some [("mode", "save")] |}.

(** Binary64 values [m * 2^e] used in the examples *)
Definition f64 (negative : bool) (m : positive) (e : Z) : spec_float :=
  S754_finite negative m e.

Definition half : spec_float := f64 false 4503599627370496 (-53).
Definition minus_half : spec_float := f64 true 4503599627370496 (-53).

(** One chunk holding one entity at [(-0.5, 0.5, 0.5)]; stone at the origin
    column [x = -1], air elsewhere. *)
Definition sample_entity : Entity :=
  {| entity_nbt :=
       Some (TCompound [("id", TStr "minecraft:armor_stand");
                        ("Pos", TList [TFloat minus_half; TFloat half; TFloat half])]) |}.

Definition sample_world : World := {|
  get_block x y z :=
    Ok (if decide (x = -1 ∧ y = 0 ∧ z = 0) then stone else air);
  get_chunk cx cz :=
    if decide (cx = -1 ∧ cz = 0)
    then Ok {| block_entities := None; entities := Some [sample_entity] |}
    else Raise ChunkLoadError;
|}.

Definition unit_box_at_minus_one : SelectionBox :=
  {| min_x := -1; min_y := 0; min_z := 0; max_x := 0; max_y := 1; max_z := 1 |}.

Definition two_voxel_box : SelectionBox :=
  {| min_x := -1; min_y := 0; min_z := 0; max_x := 1; max_y := 1; max_z := 1 |}.

(** The marker record of scenario A *)
Definition scenario_a_tag : tag :=
  TCompound [("structureName", TStr "mystructure:house");
             ("xStructureOffset", TInt 0); ("yStructureOffset", TInt 1);
             ("zStructureOffset", TInt 0);
             ("xStructureSize", TInt 3); ("yStructureSize", TInt 2);
             ("zStructureSize", TInt 3)].

(** A marker whose X size is the double [1e30], which [int] turns into
    [1000000000000000019884624838656] *)
Definition ten_to_30 : spec_float := f64 false 7105427357601002 47.

Definition huge_size_tag : tag :=
  TCompound [("structureName", TStr "mystructure:tower");
             ("xStructureOffset", TInt 0); ("yStructureOffset", TInt 1);
             ("zStructureOffset", TInt 0);
             ("xStructureSize", TFloat ten_to_30); ("yStructureSize", TInt 2);
             ("zStructureSize", TInt 3)].

Definition huge_size_data : MarkerData :=
  {| name := "mystructure:tower"; offset := (0, 1, 0);
     size := (1000000000000000019884624838656, 2, 3) |}.

(** A name and a size below a list tag *)
Definition nested_list_tag : tag :=
  TCompound [("data",
              TList [TCompound [("structureName", TStr " house ");
                                ("xStructureSize", TInt 3)]])].

(** ** Auxiliary definitions for the statements *)

(** The scan step when the voxel can be read *)
Definition scan_step `{Runtime} (box : SelectionBox)
    (be_map : gmap Position BlockEntity)
    (blocks_at : Position → Block) (s : PaletteSt * list BlockEntry)
    (p : Position) : PaletteSt * list BlockEntry :=
  if is_air (blocks_at p) then s
  else ((get_state_index (blocks_at p) s.1).2,
        (s.2 ++ [block_entry box be_map p
                   (get_state_index (blocks_at p) s.1).1])%list).

(** The record, if any, that one block entity contributes *)
Definition candidate_record `{Runtime} (world : World)
    (boxes : list SelectionBox) (item : Position * BlockEntity)
  : option (Position * MarkerData) :=
  let '((x, y, z), be) := item in
  if in_any_box boxes x y z && _is_structure_block world x y z then
    t ← nbt be; pair (x, y, z) <$> _parse_structure_block t
  else None.

(** What the loop prints for the [k]-th record bears its number, and on a
    failure its name and position. *)
Definition line_of (total : nat) (fmt : string) (i : nat)
    (record : Position * MarkerData) (line : LogLine) : Prop :=
  match line with
  | Exported i' total' fmt' _ => i' = i ∧ total' = total ∧ fmt' = fmt
  | Failed i' total' nm p _ =>
      i' = i ∧ total' = total ∧ nm = name record.2 ∧ p = record.1
  | NoneFound | Tip | Exporting _ _ _ => False
  end.

(** The builder's invariant: [keys] lists the distinct keys pushed so far
    in first-seen order, and the dictionary maps each to its position. *)
Definition palette_inv (keys : list StateKey) (st : PaletteSt) : Prop :=
  NoDup keys ∧
  length (palette st) = length keys ∧
  ∀ k i, palette_index st !! k = Some i ↔ keys !! i = Some k.

(** ** Further helpers of the exporter *)

(** [ch.isdigit()]: the digits 0 to 9 and the superscripts U+00B2, U+00B3
    and U+00B9 *)
Definition is_digit (c : ascii) : bool :=
  let n := N_of_ascii c in
  (((48 <=? n) && (n <=? 57)) || (n =? 178) || (n =? 179) || (n =? 185))%N.

(** A character-wise rewrite of a string *)
Fixpoint map_chars (f : ascii → ascii) (s : string) : string :=
  match s with
  | EmptyString => EmptyString
  | String c s' => String (f c) (map_chars f s')
  end.

(** [s.split(sep)] for a one-character separator *)
Fixpoint split_on (sep : ascii) (s : string) : list string :=
  match s with
  | EmptyString => [EmptyString]
  | String c s' =>
      if decide (c = sep) then EmptyString :: split_on sep s'
      else match split_on sep s' with
           | p :: ps => String c p :: ps
           | [] => [String c EmptyString]
           end
  end.

(** [p.isdigit()]: not empty, and digits only *)
Fixpoint all_digits (s : string) : bool :=
  match s with
  | EmptyString => true
  | String c s' => is_digit c && all_digits s'
  end.

Definition str_isdigit (p : string) : bool :=
  match p with
  | EmptyString => false
  | String _ _ => all_digits p
  end.

(** [int(p)] where it is not caught: a [ValueError] leaves the caller. *)
Definition int_of_str `{Runtime} (p : string) : result Z :=
  match py_int_of_str p with
  | Some n => Ok n
  | None => Raise (OtherError "ValueError")
  end.

(** [_parse_bedrock_version]: the three calls of [int] are evaluated in
    order, and none is inside a [try]. *)
Definition _parse_bedrock_version `{Runtime} (s : string)
  : result (option (Z * Z * Z)) :=
  if decide (s = "") then Ok None
  else
    let s := map_chars (λ c, if decide (c = ","%char) then "."%char else c)
               (strip s) in
    let cleaned := map_chars (λ ch, if is_digit ch then ch else "."%char) s in
    let parts := filter (λ p, str_isdigit p = true) (split_on "." cleaned) in
    match parts with
    | p0 :: p1 :: p2 :: _ =>
        major ← int_of_str p0;
        minor ← int_of_str p1;
        patch ← int_of_str p2;
        Ok (Some (major, minor, patch))
    | _ => Ok None
    end.

(** The path functions of the operating system that [_unique_path] calls,
    and the test [os.path.exists] of a file system. *)
Class PathLib : Type := {
  path_join : string → string → string;
  path_splitext : string → string * string;
}.

(** The [while True] loop of [_unique_path], from the suffix [i]; the
    search is cut off after [fuel] candidates, where the source goes on
    for as long as the names exist. *)
Fixpoint unique_path_loop `{PathLib} (path_exists : string → bool)
    (directory root ext : string) (fuel i : nat) : option string :=
  match fuel with
  | O => None
  | S fuel' =>
      let candidate :=
        path_join directory (root +:+ "_" +:+ str_of_nat i +:+ ext) in
      if negb (path_exists candidate) then Some candidate
      else unique_path_loop path_exists directory root ext fuel' (S i)
  end.

(** [_unique_path] over a file system given by [path_exists] *)
Definition unique_path `{PathLib} (path_exists : string → bool)
    (directory filename : string) (fuel : nat) : option string :=
  let path := path_join directory filename in
  if negb (path_exists path) then Some path
  else
    let '(root, ext) := path_splitext filename in
    unique_path_loop path_exists directory root ext fuel 1.

(** The [i]-th name that [_unique_path] tries, [0] being the plain one *)
Definition candidate_path `{PathLib} (directory filename : string) (i : nat)
  : string :=
  match i with
  | O => path_join directory filename
  | S _ =>
      path_join directory
        ((path_splitext filename).1 +:+ "_" +:+ str_of_nat i +:+
         (path_splitext filename).2)
  end.

(** What [_debug_print_structure_block] prints *)
Inductive DebugLine : Type :=
  | TopKeys (keys : list string)
  | WholeTag (t : tag)
  | PathValue (path : string) (value : tag)
  | Truncated.

(** The loop over the yielded triples, [hits] being the counter *)
Fixpoint debug_hits_loop (hits : nat) (yielded : list (string * string * tag))
  : list DebugLine :=
  match yielded with
  | [] => []
  | (path, k, v) :: rest =>
      if key_matches ["name"; "size"; "offset"; "pos"] k then
        PathValue path v ::
        (if decide (120 < S hits)%nat then [Truncated]
         else debug_hits_loop (S hits) rest)
      else debug_hits_loop hits rest
  end.

Definition _debug_print_structure_block (t : tag) : list DebugLine :=
  (match t with
   | TCompound items => TopKeys items.*1
   | _ => WholeTag t
   end) :: debug_hits_loop 0 (_iter_nbt_tree t "").

(** The maximal runs of the characters of a string that pass a test, front
    to back *)
Definition starts_with (test : ascii → bool) (s : string) : bool :=
  match s with
  | EmptyString => false
  | String c _ => test c
  end.

Fixpoint runs (test : ascii → bool) (s : string) : list string :=
  match s with
  | EmptyString => []
  | String c s' =>
      if test c then
        if starts_with test s' then
          match runs test s' with
          | r :: rs => String c r :: rs
          | [] => [String c EmptyString]
          end
        else String c EmptyString :: runs test s'
      else runs test s'
  end.

(** The code points of the digit characters: 0 to 9, and the superscripts
    two, three and one *)
Definition digit_codes : list N :=
  [48; 49; 50; 51; 52; 53; 54; 55; 56; 57; 178; 179; 185]%N.

Definition is_digit_code (c : ascii) : bool :=
  bool_decide (N_of_ascii c ∈ digit_codes).

(** The maximal runs of digit characters of a string *)
Definition digit_runs (s : string) : list string := runs is_digit_code s.

(** The string ["1.2."] followed by the superscript two *)
Definition superscript_version : string :=
  "1.2." +:+ String (ascii_of_N 178) "".

(** A sample file system and path library for examples *)
Definition sample_pathlib : PathLib := {|
  path_join d f := d +:+ "/" +:+ f;
  path_splitext f :=
    match f with
    | "house.nbt" => ("house", ".nbt")
    | _ => (f, "")
    end;
|}.

Definition marker_world : World := {|
  get_block x y z :=
    Ok (if decide (x = 10 ∧ y = 64 ∧ z = 10) then marker_block "universal_minecraft"
        else if decide (y = 65) then stone else air);
  get_chunk cx cz :=
    if decide (cx = 0 ∧ cz = 0)
    then Ok {| block_entities :=
                 Some [((10, 64, 10), {| nbt := Some scenario_a_tag |});
                       ((11, 65, 11),
                        {| nbt := Some (TCompound [("id", TStr "chest");
                                                   ("x", TInt 11); ("y", TInt 65);
                                                   ("z", TInt 11)]) |})];
               entities := None |}
    else Raise ChunkLoadError;
|}.

(** Three markers in one chunk, the second with the size [1e30] *)
Definition three_marker_world : World := {|
  get_block x y z :=
    Ok (if decide (y = 64 ∧ z = 10 ∧ x ∈ [10; 12; 14])
        then marker_block "universal_minecraft" else air);
  get_chunk cx cz :=
    if decide (cx = 0 ∧ cz = 0)
    then Ok {| block_entities :=
                 Some [((10, 64, 10), {| nbt := Some scenario_a_tag |});
                       ((12, 64, 10), {| nbt := Some huge_size_tag |});
                       ((14, 64, 10), {| nbt := Some scenario_a_tag |})];
               entities := None |}
    else Raise ChunkLoadError;
|}.

Definition marker_selection : list SelectionBox :=
  [{| min_x := 0; min_y := 60; min_z := 0; max_x := 16; max_y := 70; max_z := 16 |}].

(** The block entities of the chunks of [locs] that load, in the order of
    iteration *)
Definition loaded_block_entities (world : World) (locs : list (Z * Z))
  : list (Position * BlockEntity) :=
  c ← locs;
  match get_chunk world c.1 c.2 with
  | Ok chunk => getattr (block_entities chunk) []
  | Raise _ => []
  end.

(** An upper-case letter A to Z *)
Definition is_upper (c : ascii) : bool :=
  let n := N_of_ascii c in ((65 <=? n) && (n <=? 90))%N.

Definition has_upper (s : string) : bool :=
  existsb is_upper (list_ascii_of_string s).

(** The lines of the diagnostic output that show a value *)
Definition is_path_value (line : DebugLine) : bool :=
  match line with
  | PathValue _ _ => true
  | _ => false
  end.

(** What holds of one coordinate [b] of an entity's block position, for the
    side [[lo, hi)] of the box *)
Definition block_coordinate_range (lo hi b : Z) : Prop :=
  (0 ≤ b ≤ hi - lo ∧ (0 ≤ lo → b < hi - lo))%Z.

(** A host for examples: the files written, by path. The tree serializer
    stores the document, the chunk-container encoder is not available. *)
Definition sample_host_io : HostIO (list (string * StructureDocument)) := {|
  makedirs_for _ h := (h, Ok ());
  save_to out_path root h := ((h ++ [(out_path, root)])%list, Ok ());
  _export_mcstructure _ _ _ _ _ h := (h, Raise (OtherError "no encoder"));
  _unique_path directory filename _ := directory +:+ "/" +:+ filename;
  _safe_filename name := name;
|}.

Definition mcstructure_options : Options :=
  {| out_dir := "out"; include_entities := true; remove_blocks := false;
     bedrock_version_str := "1.21.132"; format_field := " McStructure " |}.

Definition scenario_a_data : MarkerData :=
  {| name := "mystructure:house"; offset := (0, 1, 0); size := (3, 2, 3) |}.

Definition scenario_a_box : SelectionBox :=
  {| min_x := 10; min_y := 65; min_z := 10;
     max_x := 13; max_y := 67; max_z := 13 |}.

Definition two_voxel_document : StructureDocument :=
  {| doc_size := (2, 1, 1);
     doc_palette := [TCompound [("Name", TStr "universal_minecraft:stone")]];
     doc_blocks := [{| pos := (0, 0, 0); state := 0; extra := None |}];
     doc_entities := [] |}.

Definition chest_block_entity : BlockEntity :=
  {| nbt := Some (TCompound [("id", TStr "chest"); ("x", TInt 11);
                             ("y", TInt 65); ("z", TInt 11)]) |}.

Definition sample_entity_entry : EntityEntry :=
  {| entity_pos := (half, half, half);
     blockPos := (1, 0, 0);
     entity_data :=
       TCompound [("id", TStr "minecraft:armor_stand");
                  ("Pos", TList [TFloat minus_half; TFloat half; TFloat half])] |}.

(** * Properties *)

(** ** The order on property pairs *)

Global Instance pair_le_total : Total pair_le.
Proof.
  intros p q. unfold pair_le, pair_leb.
  destruct (decide (p.1 = q.1)) as [E|N].
  - rewrite decide_True by done. apply (total String.le).
  - rewrite (decide_False (P := q.1 = p.1)) by congruence. apply (total String.le).
Qed.

Global Instance pair_le_antisymm : AntiSymm (=) pair_le.
Proof.
  intros [k1 v1] [k2 v2]. unfold pair_le, pair_leb. simpl.
  destruct (decide (k1 = k2)) as [->|N].
  - rewrite decide_True by done. intros H1 H2.
    f_equal. by apply (anti_symm String.le).
  - rewrite decide_False by congruence. intros H1 H2.
    destruct N. by apply (anti_symm String.le).
Qed.

Global Instance pair_le_trans : Transitive pair_le.
Proof.
  intros [k1 v1] [k2 v2] [k3 v3]. unfold pair_le, pair_leb. simpl.
  repeat case_decide; simplify_eq; try done.
  - intros; by etrans.
  - intros L1 L2. exfalso. by apply H, (anti_symm String.le).
  - intros L1 L2. change (String.le k1 k3). by etrans.
Qed.

Lemma sorted_items_perm (l1 l2 : list (string * string)) :
  l1 ≡ₚ l2 → sorted_items l1 = sorted_items l2.
Proof.
  intros HP. unfold sorted_items.
  apply (Sorted_unique pair_le); try apply Sorted_merge_sort; try apply _.
  by rewrite !merge_sort_Permutation.
Qed.

(** ** The palette builder *)

Lemma first_seen_from_prefix {K} `{EqDecision K} (ks acc : list K) :
  acc `prefix_of` first_seen_from acc ks.
Proof.
  revert acc. induction ks as [|k ks IH]; intros acc; simpl; [done|].
  case_decide; [apply IH|].
  etrans; [|apply IH]. by apply prefix_app_r.
Qed.

Lemma first_seen_from_app {K} `{EqDecision K} (ks1 ks2 acc : list K) :
  first_seen_from acc (ks1 ++ ks2) = first_seen_from (first_seen_from acc ks1) ks2.
Proof. revert acc. induction ks1 as [|k ks1 IH]; intros acc; simpl; auto. Qed.

Lemma first_seen_from_NoDup {K} `{EqDecision K} (ks acc : list K) :
  NoDup acc → NoDup (first_seen_from acc ks).
Proof.
  revert acc. induction ks as [|k ks IH]; intros acc Hacc; simpl; [done|].
  apply IH. case_decide; [done|].
  apply NoDup_app. split_and!; [done| |apply NoDup_singleton].
  intros x Hx ->%list_elem_of_singleton. done.
Qed.

Lemma first_seen_from_elem_of {K} `{EqDecision K} (ks acc : list K) x :
  x ∈ first_seen_from acc ks ↔ x ∈ acc ∨ x ∈ ks.
Proof.
  revert acc. induction ks as [|k ks IH]; intros acc; simpl.
  - set_solver.
  - rewrite IH. case_decide; set_solver.
Qed.

Lemma palette_inv_empty : palette_inv [] palette_empty.
Proof.
  split_and!; [constructor|done|].
  intros k i. simpl. rewrite lookup_empty. by destruct i.
Qed.

Lemma palette_inv_known keys st k :
  palette_inv keys st → (k ∈ keys ↔ is_Some (palette_index st !! k)).
Proof.
  intros (_ & _ & Hidx). rewrite list_elem_of_lookup. split.
  - intros [i Hi]. exists i. by apply Hidx.
  - intros [i Hi]. exists i. by apply Hidx.
Qed.

Lemma get_state_index_known keys st b i :
  palette_inv keys st → keys !! i = Some (_state_key b) →
  get_state_index b st = (i, st).
Proof.
  intros (_ & _ & Hidx) Hi. unfold get_state_index.
  apply Hidx in Hi. by rewrite Hi.
Qed.

Lemma get_state_index_novel keys st b :
  palette_inv keys st → _state_key b ∉ keys →
  get_state_index b st =
    (length (palette st),
     {| palette := palette st ++ [_universal_block_to_java_state b];
        palette_index := <[_state_key b := length (palette st)]> (palette_index st) |}).
Proof.
  intros Hinv Hk. unfold get_state_index.
  destruct (palette_index st !! _state_key b) as [i|] eqn:E; [|done].
  destruct Hk. eapply palette_inv_known; eauto.
Qed.

Lemma get_state_index_inv keys st b :
  palette_inv keys st →
  palette_inv (first_seen_from keys [_state_key b]) (get_state_index b st).2 ∧
  first_seen_from keys [_state_key b] !! (get_state_index b st).1
    = Some (_state_key b).
Proof.
  intros Hinv. simpl. case_decide as Hk.
  - apply list_elem_of_lookup in Hk as [i Hi].
    rewrite (get_state_index_known keys st b i) by done. done.
  - rewrite (get_state_index_novel keys st b) by done. simpl.
    destruct Hinv as (Hnd & Hlen & Hidx). split.
    + split_and!.
      * apply NoDup_app. split_and!; [done| |apply NoDup_singleton].
        intros x Hx ->%list_elem_of_singleton. done.
      * simpl. rewrite !length_app. simpl. lia.
      * intros k i. simpl. destruct (decide (_state_key b = k)) as [<-|Hne].
        -- rewrite lookup_insert_eq. split.
           ++ intros [= <-]. rewrite Hlen.
              rewrite lookup_app_r by lia. by rewrite Nat.sub_diag.
           ++ intros Hi. f_equal.
              destruct (decide (i < length keys)%nat) as [Hlt|Hge].
              ** rewrite lookup_app_l in Hi by done.
                 destruct Hk. eapply list_elem_of_lookup_2; eauto.
              ** apply lookup_lt_Some in Hi. rewrite length_app in Hi.
                 simpl in Hi. lia.
        -- rewrite lookup_insert_ne by done. rewrite Hidx. split.
           ++ intros Hi. by apply lookup_app_l_Some.
           ++ intros Hi. apply lookup_app_Some in Hi as [Hi|[_ Hi]]; [done|].
              apply list_lookup_singleton_Some in Hi as [_ ?]. done.
    + rewrite Hlen. rewrite lookup_app_r by lia. by rewrite Nat.sub_diag.
Qed.

Lemma push_all_app bs1 bs2 st :
  push_all (bs1 ++ bs2) st =
    ((push_all bs1 st).1 ++ (push_all bs2 (push_all bs1 st).2).1,
     (push_all bs2 (push_all bs1 st).2).2)%list.
Proof.
  revert st. induction bs1 as [|b bs1 IH]; intros st; simpl.
  - by destruct (push_all bs2 st).
  - destruct (get_state_index b st) as [i st1]. rewrite IH.
    destruct (push_all bs1 st1) as [idxs st2]. simpl.
    by destruct (push_all bs2 st2).
Qed.

Lemma push_all_inv bs keys st :
  palette_inv keys st →
  palette_inv (first_seen_from keys (_state_key <$> bs)) (push_all bs st).2 ∧
  Forall2 (λ b i, first_seen_from keys (_state_key <$> bs) !! i
                    = Some (_state_key b)) bs (push_all bs st).1.
Proof.
  revert keys st. induction bs as [|b bs IH]; intros keys st Hinv.
  - simpl. split; [done|constructor].
  - change (_state_key <$> b :: bs) with ([_state_key b] ++ (_state_key <$> bs))%list.
    rewrite first_seen_from_app.
    destruct (get_state_index_inv keys st b Hinv) as [Hinv1 Hi].
    simpl push_all. destruct (get_state_index b st) as [i st1]. simpl in Hinv1, Hi.
    destruct (IH _ _ Hinv1) as [Hinv2 Hall].
    destruct (push_all bs st1) as [idxs st2]. simpl in *. split; [done|].
    constructor; [|done].
    eapply prefix_lookup_Some; [exact Hi|]. apply first_seen_from_prefix.
Qed.

Lemma push_all_length bs st : length (push_all bs st).1 = length bs.
Proof.
  revert st. induction bs as [|b bs IH]; intros st; simpl; [done|].
  destruct (get_state_index b st) as [i st1]. specialize (IH st1).
  destruct (push_all bs st1). simpl in *. by rewrite IH.
Qed.

Lemma push_all_lookup bs st j b :
  bs !! j = Some b →
  (push_all bs st).1 !! j
    = Some (get_state_index b (push_all (take j bs) st).2).1.
Proof.
  revert st j. induction bs as [|b0 bs IH]; intros st j Hj; [done|].
  destruct j as [|j]; simpl in *.
  - simplify_eq. destruct (get_state_index b st) as [i st1].
    by destruct (push_all bs st1).
  - destruct (get_state_index b0 st) as [i st1]. specialize (IH st1 j Hj).
    destruct (push_all bs st1), (push_all (take j bs) st1). done.
Qed.

Lemma push_all_take_S bs st j b :
  bs !! j = Some b →
  (push_all (take (S j) bs) st).2
    = (get_state_index b (push_all (take j bs) st).2).2.
Proof.
  intros Hj. rewrite (take_S_r _ _ _ Hj), push_all_app. simpl.
  by destruct (get_state_index b _).
Qed.

Lemma get_state_index_palette_prefix b st :
  palette st `prefix_of` palette (get_state_index b st).2.
Proof.
  unfold get_state_index. destruct (palette_index st !! _); simpl; [done|].
  by apply prefix_app_r.
Qed.

Lemma push_all_palette_prefix bs st :
  palette st `prefix_of` palette (push_all bs st).2.
Proof.
  revert st. induction bs as [|b bs IH]; intros st; simpl; [done|].
  pose proof (get_state_index_palette_prefix b st) as Hp.
  destruct (get_state_index b st) as [i st1]. specialize (IH st1).
  destruct (push_all bs st1). simpl in *. by etrans.
Qed.

Lemma push_all_take_palette_prefix bs st j :
  palette (push_all (take j bs) st).2 `prefix_of` palette (push_all bs st).2.
Proof.
  rewrite <-(take_drop j bs) at 2. rewrite push_all_app. simpl.
  apply push_all_palette_prefix.
Qed.

Lemma not_elem_of_first_seen {K} `{EqDecision K} (ks : list K) x :
  x ∉ ks → x ∉ first_seen ks.
Proof. unfold first_seen. rewrite first_seen_from_elem_of. set_solver. Qed.

(** What a push of a state not seen before does, in a run from the empty
    builder *)
Lemma push_all_novel bs j b :
  bs !! j = Some b →
  _state_key b ∉ (_state_key <$> take j bs) →
  let before := (push_all (take j bs) palette_empty).2 in
  (push_all bs palette_empty).1 !! j = Some (length (palette before)) ∧
  palette (push_all (take (S j) bs) palette_empty).2
    = (palette before ++ [_universal_block_to_java_state b])%list.
Proof.
  intros Hj Hnew before.
  destruct (push_all_inv (take j bs) [] palette_empty palette_inv_empty)
    as [Hinv _].
  apply not_elem_of_first_seen in Hnew. fold before in Hinv.
  rewrite (push_all_lookup _ _ _ _ Hj), (push_all_take_S _ _ _ _ Hj).
  fold before.
  by rewrite (get_state_index_novel _ _ _ Hinv Hnew).
Qed.

Lemma state_key_same_state (b b' : Block) :
  _state_key b = _state_key b' ↔ same_state b b'.
Proof.
  unfold _state_key, same_state, qualified_name, getattr. split.
  - intros [= Hn Hs]. split; [done|].
    unfold sorted_items in Hs.
    rewrite <-(merge_sort_Permutation pair_le (default [] (properties b))).
    rewrite Hs. apply merge_sort_Permutation.
  - intros [-> Hp]. f_equal. by apply sorted_items_perm.
Qed.

Lemma novel_at_key bs j b :
  novel_at bs j b → _state_key b ∉ (_state_key <$> take j bs).
Proof.
  intros [_ Hnew] Hin.
  apply list_elem_of_fmap in Hin as (b' & Hk & Hb').
  apply list_elem_of_lookup in Hb' as [j' Hj'].
  apply lookup_take_Some in Hj' as [Hj' Hlt].
  apply (Hnew j' b' Hlt Hj'). by apply state_key_same_state.
Qed.

(** C3. Pushing any sequence of voxel states through one palette builder.
    Two states have the same key exactly when they are equal under the
    rule: the same [namespace:base_name] and the same property pairs in
    whatever order. Every push returns an index, the position of the
    state's key among the distinct keys in first-seen order, and two pushes
    return the same index exactly when their states are equal under the
    rule. A state that no earlier push equals gets [len(palette)] and is
    appended there, and these fresh indices increase strictly. The indices
    in use are exactly [0 .. len(palette) - 1], one for each distinct
    state. *)
Theorem palette_get_or_add (bs : list Block) :
  let idxs := (push_all bs palette_empty).1 in
  let final := (push_all bs palette_empty).2 in
  let keys := first_seen (_state_key <$> bs) in
  let before j := (push_all (take j bs) palette_empty).2 in
  (∀ b b', _state_key b = _state_key b' ↔ same_state b b') ∧
  Forall2 (λ b i, keys !! i = Some (_state_key b)) bs idxs ∧
  (∀ j j' b b' i i',
     bs !! j = Some b → bs !! j' = Some b' →
     idxs !! j = Some i → idxs !! j' = Some i' →
     (same_state b b' ↔ i = i')) ∧
  (∀ j b,
     novel_at bs j b →
     idxs !! j = Some (length (palette (before j))) ∧
     palette final !! length (palette (before j))
       = Some (_universal_block_to_java_state b)) ∧
  (∀ j j' b b' i i',
     novel_at bs j b → novel_at bs j' b' →
     idxs !! j = Some i → idxs !! j' = Some i' →
     (j < j')%nat → (i < i')%nat) ∧
  (∀ j b i,
     bs !! j = Some b → idxs !! j = Some i →
     ∃ j0 b0, novel_at bs j0 b0 ∧ same_state b0 b ∧ idxs !! j0 = Some i ∧
              i = length (palette (before j0))) ∧
  NoDup keys ∧
  length (palette final) = length keys ∧
  (∀ i, (i < length (palette final))%nat ↔ i ∈ idxs).
Proof.
  intros idxs final keys before.
  destruct (push_all_inv bs [] palette_empty palette_inv_empty)
    as [(Hnd & Hlen & Hidx) Hall].
  fold (first_seen (_state_key <$> bs)) in Hnd, Hlen, Hidx, Hall.
  fold keys in Hnd, Hlen, Hidx, Hall. fold final in Hlen, Hidx.
  fold idxs in Hall.
  assert (Hat : ∀ j b i, bs !! j = Some b → idxs !! j = Some i →
                         keys !! i = Some (_state_key b)).
  { intros j b i Hb Hi.
    by destruct (Forall2_lookup_lr _ _ _ _ _ _ Hall Hb Hi). }
  assert (Hfresh : ∀ j b, novel_at bs j b →
            idxs !! j = Some (length (palette (before j))) ∧
            palette (before (S j))
              = (palette (before j) ++ [_universal_block_to_java_state b])%list).
  { intros j b Hnew. apply push_all_novel; [apply Hnew|by apply novel_at_key]. }
  assert (Hsame : ∀ j j' b b' i i',
            bs !! j = Some b → bs !! j' = Some b' →
            idxs !! j = Some i → idxs !! j' = Some i' →
            (same_state b b' ↔ i = i')).
  { intros j j' b b' i i' Hb Hb' Hi Hi'.
    pose proof (Hat _ _ _ Hb Hi) as Hk. pose proof (Hat _ _ _ Hb' Hi') as Hk'.
    rewrite <-state_key_same_state. split.
    - intros E. rewrite E in Hk. eapply NoDup_lookup; eauto.
    - intros <-. congruence. }
  split_and!; try done.
  - apply state_key_same_state.
  - intros j b Hnew. destruct (Hfresh j b Hnew) as [Hi Hpal].
    split; [done|].
    eapply prefix_lookup_Some; [|apply (push_all_take_palette_prefix bs _ (S j))].
    fold (before (S j)). rewrite Hpal.
    rewrite lookup_app_r by lia. by rewrite Nat.sub_diag.
  - intros j j' b b' i i' Hnew Hnew' Hi Hi' Hlt.
    destruct (Hfresh j b Hnew) as [Hj Hpal].
    destruct (Hfresh j' b' Hnew') as [Hj' _].
    rewrite Hj in Hi. rewrite Hj' in Hi'. simplify_eq.
    assert (palette (before (S j)) `prefix_of` palette (before j')) as Hpre.
    { unfold before. replace (take (S j) bs) with (take (S j) (take j' bs)).
      - apply push_all_take_palette_prefix.
      - rewrite take_take. f_equal. lia. }
    apply prefix_length in Hpre. rewrite Hpal, length_app in Hpre.
    simpl in Hpre. lia.
  - intros j. induction j as [j IH] using lt_wf_ind. intros b i Hb Hi.
    destruct (decide (Exists (λ b', _state_key b' = _state_key b) (take j bs)))
      as [Hex|Hnex].
    + apply Exists_exists in Hex as (b' & Hin & Hk).
      apply list_elem_of_lookup in Hin as [j' Hj'].
      apply lookup_take_Some in Hj' as [Hj' Hlt].
      destruct (Forall2_lookup_l _ _ _ _ _ Hall Hj') as (i' & Hi' & _).
      assert (i' = i) as ->.
      { apply (Hsame j' j b' b i' i Hj' Hb Hi' Hi).
        by apply state_key_same_state. }
      destruct (IH j' Hlt b' i Hj' Hi') as (j0 & b0 & Hnov & Hs & Hi0 & Hlen0).
      exists j0, b0. split_and!; try done.
      apply state_key_same_state. apply state_key_same_state in Hs.
      congruence.
    + assert (novel_at bs j b) as Hnov.
      { split; [done|]. intros j' b' Hlt Hj' Hs. apply Hnex.
        apply Exists_exists. exists b'. split.
        - eapply list_elem_of_lookup_2. apply lookup_take_Some. eauto.
        - by apply state_key_same_state. }
      exists j, b. destruct (Hfresh j b Hnov) as [Hj _].
      split_and!; try done. congruence.
  - intros i. split.
    + intros Hi. rewrite Hlen in Hi.
      destruct (lookup_lt_is_Some_2 keys i Hi) as [k Hk].
      assert (k ∈ _state_key <$> bs) as Hin.
      { assert (k ∈ keys) as Hkin by (eapply list_elem_of_lookup_2; eauto).
        unfold keys, first_seen in Hkin.
        apply first_seen_from_elem_of in Hkin as [Hkin|Hkin]; [|done].
        by apply elem_of_nil in Hkin. }
      apply list_elem_of_fmap in Hin as (b & -> & Hb).
      apply list_elem_of_lookup in Hb as [j Hb].
      destruct (Forall2_lookup_l _ _ _ _ _ Hall Hb) as (i' & Hi' & Hk').
      assert (i = i') as -> by (eapply NoDup_lookup; eauto).
      eapply list_elem_of_lookup_2; eauto.
    + intros Hi. apply list_elem_of_lookup in Hi as [j Hj].
      destruct (Forall2_lookup_r _ _ _ _ _ Hall Hj) as (b & Hb & Hk).
      rewrite Hlen. by eapply lookup_lt_Some.
Qed.

(** ** The empty test and the marker test *)

(** C10. The empty test of the scan reads the base name alone: a voxel is
    skipped exactly when its [base_name] is ["air"] or is absent, whatever
    its namespace and properties; a voxel with any other base name gets a
    palette index and a block entry. *)
Theorem empty_test_reads_base_name_only (blk : Block) :
  (is_air blk = true ↔ base_name blk = None ∨ base_name blk = Some "air") ∧
  (∀ ns props,
     is_air {| namespace := ns; base_name := base_name blk; properties := props |}
       = is_air blk) ∧
  (∀ (R : Runtime) world box be_map x y z s,
     get_block world x y z = Ok blk →
     visit_voxel world box be_map false x y z s =
       if is_air blk then Ok s
       else Ok ((get_state_index blk s.1).2,
                (s.2 ++ [block_entry box be_map (x, y, z)
                           (get_state_index blk s.1).1])%list)).
Proof.
  split_and!.
  - unfold is_air, getattr. rewrite bool_decide_eq_true.
    destruct (base_name blk) as [bn|]; simpl; naive_solver.
  - done.
  - intros R world box be_map x y z s Hblk. unfold visit_voxel.
    rewrite Hblk. simpl. destruct (is_air blk); [done|].
    destruct (get_state_index blk s.1) as [i pal]. simpl.
    reflexivity.
Qed.

(** C2, as the code has it. A block-entity's voxel passes the marker test
    exactly when the block read at its position has the base name
    ["structure_block"]; the namespace is not read. A position whose block
    cannot be read does not pass. *)
Theorem marker_test_reads_base_name_only (world : World) (x y z : Z) :
  (_is_structure_block world x y z = true ↔
     ∃ blk, get_block world x y z = Ok blk ∧
            base_name blk = Some "structure_block") ∧
  (∀ gc ns props,
     _is_structure_block
       {| get_block _ _ _ :=
            Ok {| namespace := ns; base_name := Some "structure_block";
                  properties := props |};
          get_chunk := gc |} x y z = true) ∧
  (∀ (R : Runtime) boxes be out,
     visit_block_entity world boxes ((x, y, z), be) out =
       if in_any_box boxes x y z && _is_structure_block world x y z then
         match nbt be with
         | Some t => (out ++ [((x, y, z), t, _parse_structure_block t)])%list
         | None => out
         end
       else out).
Proof.
  split_and!.
  - unfold _is_structure_block.
    destruct (get_block world x y z) as [blk|e].
    + rewrite bool_decide_eq_true. naive_solver.
    + naive_solver.
  - done.
  - intros R boxes be out. unfold visit_block_entity.
    destruct (in_any_box boxes x y z); [|done].
    by destruct (_is_structure_block world x y z).
Qed.

(** C2, as stated, fails: no single namespace-qualified name is shared by
    all the blocks that pass the marker test. Blocks ["minecraft:structure_block"]
    and ["othermod:structure_block"] both pass. *)
Lemma marker_test_ignores_namespace :
  ¬ ∃ designated : string,
      ∀ world x y z blk,
        get_block world x y z = Ok blk →
        _is_structure_block world x y z = true →
        qualified_name blk = designated.
Proof.
  intros [designated Hall].
  pose (w ns := {| get_block _ _ _ := Ok (marker_block ns);
                   get_chunk _ _ := Raise ChunkLoadError |}).
  pose proof (Hall (w "minecraft") 0 0 0 _ eq_refl eq_refl) as H1.
  pose proof (Hall (w "othermod") 0 0 0 _ eq_refl eq_refl) as H2.
  rewrite <-H2 in H1. discriminate H1.
Qed.

(** ** Loops *)

Lemma for_each_app {A S} (l1 l2 : list A) (body : A → S → result S) s :
  for_each (l1 ++ l2) body s = (s' ← for_each l1 body s; for_each l2 body s').
Proof.
  revert s. induction l1 as [|a l1 IH]; intros s; simpl; [done|].
  destruct (body a s) as [s1|e]; simpl; [apply IH|done].
Qed.

Lemma for_each_bind {A B S} (l : list A) (g : A → list B)
    (body : B → S → result S) s :
  for_each (l ≫= g) body s = for_each l (λ a, for_each (g a) body) s.
Proof.
  revert s. induction l as [|a l IH]; intros s; [done|].
  change ((a :: l) ≫= g) with (g a ++ (l ≫= g))%list.
  rewrite for_each_app. simpl.
  destruct (for_each (g a) body s) as [s1|e]; simpl; [apply IH|done].
Qed.

Lemma for_each_ext {A S} (l : list A) (body1 body2 : A → S → result S) s :
  (∀ a s, a ∈ l → body1 a s = body2 a s) →
  for_each l body1 s = for_each l body2 s.
Proof.
  revert s. induction l as [|a l IH]; intros s Hext; simpl; [done|].
  rewrite Hext by left. destruct (body2 a s) as [s1|e]; simpl; [|done].
  apply IH. intros. apply Hext. by right.
Qed.

Lemma for_each_pure {A S} (l : list A) (body : A → S → result S)
    (step : S → A → S) s :
  (∀ a s, a ∈ l → body a s = Ok (step s a)) →
  for_each l body s = Ok (foldl step s l).
Proof.
  revert s. induction l as [|a l IH]; intros s Hstep; simpl; [done|].
  rewrite Hstep by left. simpl. apply IH. intros. apply Hstep. by right.
Qed.

Lemma for_each_skip {A S} (l : list A) (body : A → S → result S) s :
  (∀ a s, body a s = Ok s) → for_each l body s = Ok s.
Proof.
  intros Hskip. induction l as [|a l IH]; simpl; [done|].
  by rewrite Hskip.
Qed.

(** ** The voxel scan *)

Lemma elem_of_range a b k : k ∈ range a b ↔ a ≤ k < b.
Proof. unfold range. rewrite elem_of_seqZ. lia. Qed.

Lemma elem_of_scan_order box x y z :
  (x, y, z) ∈ scan_order box ↔ in_box box x y z = true.
Proof.
  unfold scan_order, in_box.
  rewrite !andb_true_iff, !Z.leb_le, !Z.ltb_lt.
  split.
  - intros Hin.
    apply list_elem_of_bind in Hin as (y' & Hin & Hy%elem_of_range).
    apply list_elem_of_bind in Hin as (z' & Hin & Hz%elem_of_range).
    apply list_elem_of_bind in Hin as (x' & Hin & Hx%elem_of_range).
    apply list_elem_of_singleton in Hin. simplify_eq. lia.
  - intros Hb.
    apply list_elem_of_bind. exists y. split; [|apply elem_of_range; lia].
    apply list_elem_of_bind. exists z. split; [|apply elem_of_range; lia].
    apply list_elem_of_bind. exists x. split; [|apply elem_of_range; lia].
    by apply list_elem_of_singleton.
Qed.

Lemma NoDup_range a b : NoDup (range a b).
Proof. apply NoDup_seqZ. Qed.

Lemma NoDup_scan_order box : NoDup (scan_order box).
Proof.
  unfold scan_order. apply NoDup_bind; [| |apply NoDup_range].
  { intros y1 y2 p _ _ H1 H2.
    apply list_elem_of_bind in H1 as (z1 & H1 & _).
    apply list_elem_of_bind in H1 as (x1 & H1 & _).
    apply list_elem_of_bind in H2 as (z2 & H2 & _).
    apply list_elem_of_bind in H2 as (x2 & H2 & _).
    apply list_elem_of_singleton in H1, H2. congruence. }
  intros y _. apply NoDup_bind; [| |apply NoDup_range].
  { intros z1 z2 p _ _ H1 H2.
    apply list_elem_of_bind in H1 as (x1 & H1 & _).
    apply list_elem_of_bind in H2 as (x2 & H2 & _).
    apply list_elem_of_singleton in H1, H2. congruence. }
  intros z _. apply NoDup_bind; [| |apply NoDup_range].
  { intros x1 x2 p _ _ H1 H2.
    apply list_elem_of_singleton in H1, H2. congruence. }
  intros x _. apply NoDup_singleton.
Qed.

(** The three nested loops visit [scan_order box], front to back. *)
Lemma scan_box_flat `{Runtime} world box be_map remove_blocks :
  scan_box world box be_map remove_blocks =
    for_each (scan_order box)
      (λ '(x, y, z), visit_voxel world box be_map remove_blocks x y z)
      (palette_empty, []).
Proof.
  unfold scan_box, scan_order. rewrite for_each_bind.
  apply for_each_ext. intros y s _. rewrite for_each_bind.
  apply for_each_ext. intros z s' _. rewrite for_each_bind.
  apply for_each_ext. intros x s'' _. simpl.
  by destruct (visit_voxel _ _ _ _ _ _ _ _).
Qed.

Lemma scan_steps_spec `{Runtime} box be_map blocks_at ps pal blocks :
  let kept := filter (λ p, is_air (blocks_at p) = false) ps in
  let pushed := push_all (blocks_at <$> kept) pal in
  foldl (scan_step box be_map blocks_at) (pal, blocks) ps =
    (pushed.2, (blocks ++ zip_with (block_entry box be_map) kept pushed.1)%list).
Proof.
  revert pal blocks. induction ps as [|p ps IH]; intros pal blocks; simpl.
  - by rewrite app_nil_r.
  - unfold scan_step at 2.
    destruct (is_air (blocks_at p)) eqn:Hair; simpl.
    + rewrite filter_cons_False by (by rewrite Hair). apply IH.
    + rewrite filter_cons_True by done. simpl.
      destruct (get_state_index (blocks_at p) pal) as [i pal1]. simpl.
      rewrite IH. simpl.
      destruct (push_all _ pal1) as [idxs pal2]. simpl.
      by rewrite <-app_assoc.
Qed.

Lemma scan_box_readable `{Runtime} world box be_map blocks_at :
  (∀ x y z, in_box box x y z = true →
            get_block world x y z = Ok (blocks_at (x, y, z))) →
  scan_box world box be_map false =
    Ok (foldl (scan_step box be_map blocks_at) (palette_empty, [])
          (scan_order box)).
Proof.
  intros Hread. rewrite scan_box_flat. apply for_each_pure.
  intros [[x y] z] s Hin%elem_of_scan_order.
  unfold visit_voxel, scan_step. rewrite (Hread _ _ _ Hin). simpl.
  destruct (is_air (blocks_at (x, y, z))); [done|].
  by destruct (get_state_index _ s.1).
Qed.

Lemma scan_box_removed `{Runtime} world box be_map :
  scan_box world box be_map true = Ok (palette_empty, []).
Proof.
  unfold scan_box.
  apply for_each_skip. intros y s.
  apply for_each_skip. intros z s'.
  by apply for_each_skip.
Qed.

(** C5. With remove-blocks off and the voxels of the box readable, the
    blocks list is the list of the non-air voxels of the box taken in
    Y-major, then Z, then X order; the entry of a voxel carries the position
    minus [box.min] and the index that the palette builder returns when the
    kept voxels are pushed in that order, which is the position of the
    voxel's key among the distinct keys in first-seen order. *)
Theorem blocks_list_in_scan_order `{Runtime} (world : World)
    (box : SelectionBox) (blocks_at : Position → Block) :
  (∀ x y z, in_box box x y z = true →
            get_block world x y z = Ok (blocks_at (x, y, z))) →
  let kept := filter (λ p, is_air (blocks_at p) = false) (scan_order box) in
  let pushed := push_all (blocks_at <$> kept) palette_empty in
  let blocks be_map := zip_with (block_entry box be_map) kept pushed.1 in
  (∀ x y z, (x, y, z) ∈ kept ↔
     in_box box x y z = true ∧ is_air (blocks_at (x, y, z)) = false) ∧
  NoDup kept ∧
  (∀ be_map, scan_box world box be_map false = Ok (pushed.2, blocks be_map)) ∧
  (∀ include_entities,
     build_structure_document world box include_entities false =
       (be_map ← _collect_block_entities_in_box world box;
        entities_list ←
          (if include_entities then collect_entities world box else Ok []);
        Ok {| doc_size := (max_x box - min_x box, max_y box - min_y box,
                           max_z box - min_z box);
              doc_palette := palette pushed.2;
              doc_blocks := blocks be_map;
              doc_entities := entities_list |})) ∧
  (∀ be_map, pos <$> blocks be_map
     = (λ '(x, y, z), (x - min_x box, y - min_y box, z - min_z box)) <$> kept) ∧
  Forall2 (λ p i, first_seen (_state_key ∘ blocks_at <$> kept) !! i
                    = Some (_state_key (blocks_at p))) kept pushed.1.
Proof.
  intros Hread kept pushed blocks.
  assert (Hscan : ∀ be_map,
            scan_box world box be_map false = Ok (pushed.2, blocks be_map)).
  { intros be_map. rewrite (scan_box_readable _ _ _ _ Hread).
    by rewrite scan_steps_spec. }
  assert (Hlen : length pushed.1 = length kept).
  { unfold pushed. by rewrite push_all_length, length_fmap. }
  split_and!.
  - intros x y z. unfold kept.
    rewrite list_elem_of_filter, elem_of_scan_order. tauto.
  - apply NoDup_filter, NoDup_scan_order.
  - done.
  - intros inc. unfold build_structure_document.
    destruct (_collect_block_entities_in_box world box) as [be_map|e];
      simpl; [|done].
    by rewrite Hscan.
  - intros be_map. unfold blocks. clear Hscan.
    revert Hlen. generalize pushed.1 as idxs.
    induction kept as [|[[x y] z] kept' IH]; intros [|i idxs] Hlen;
      simplify_eq/=; [done|].
    f_equal. by apply IH.
  - destruct (push_all_inv (blocks_at <$> kept) [] palette_empty
                palette_inv_empty) as [_ Hall].
    fold pushed in Hall. rewrite <-list_fmap_compose in Hall.
    by apply Forall2_fmap_l in Hall.
Qed.

(** C9. With remove-blocks on, the scan reads no voxel and leaves the
    palette and the blocks list empty; the document has the dimensions of
    the box as its size, and its entities are the ones collected when
    include-entities is on and none otherwise, the same list as with
    remove-blocks off. *)
Theorem remove_blocks_document `{Runtime} (world : World)
    (box : SelectionBox) (include_entities : bool) :
  build_structure_document world box include_entities true =
    (_ ← _collect_block_entities_in_box world box;
     entities_list ←
       (if include_entities then collect_entities world box else Ok []);
     Ok {| doc_size := (max_x box - min_x box, max_y box - min_y box,
                        max_z box - min_z box);
           doc_palette := [];
           doc_blocks := [];
           doc_entities := entities_list |}) ∧
  (∀ doc,
     build_structure_document world box include_entities true = Ok doc →
     doc_size doc = (max_x box - min_x box, max_y box - min_y box,
                     max_z box - min_z box) ∧
     doc_palette doc = [] ∧ doc_blocks doc = [] ∧
     (if include_entities then collect_entities world box = Ok (doc_entities doc)
      else doc_entities doc = [])) ∧
  (∀ unread : Z → Z → Z → result Block,
     build_structure_document
       {| get_block := unread; get_chunk := get_chunk world |}
       box include_entities true
     = build_structure_document world box include_entities true) ∧
  (∀ doc doc',
     build_structure_document world box include_entities true = Ok doc →
     build_structure_document world box include_entities false = Ok doc' →
     doc_entities doc = doc_entities doc').
Proof.
  assert (Heq : ∀ w,
    build_structure_document w box include_entities true =
      (_ ← _collect_block_entities_in_box w box;
       entities_list ←
         (if include_entities then collect_entities w box else Ok []);
       Ok {| doc_size := (max_x box - min_x box, max_y box - min_y box,
                          max_z box - min_z box);
             doc_palette := [];
             doc_blocks := [];
             doc_entities := entities_list |})).
  { intros w. unfold build_structure_document.
    destruct (_collect_block_entities_in_box w box) as [be_map|e];
      simpl; [|done].
    by rewrite scan_box_removed. }
  split_and!.
  - apply Heq.
  - intros doc. rewrite Heq.
    destruct (_collect_block_entities_in_box world box); simpl; [|done].
    destruct include_entities; simpl.
    + destruct (collect_entities world box); simpl; [|done].
      by intros [= <-].
    + by intros [= <-].
  - intros unread. by rewrite !Heq.
  - intros doc doc'. rewrite Heq. unfold build_structure_document.
    destruct (_collect_block_entities_in_box world box) as [be_map|e];
      simpl; [|done].
    destruct (scan_box world box be_map false); simpl; [|done].
    destruct (if include_entities then _ else _); simpl; [|done].
    by intros [= <-] [= <-].
Qed.

(** ** Marker records *)

Lemma parse_structure_block_Some `{Runtime} (t : tag) (data : MarkerData) :
  _parse_structure_block t = Some data ↔
  ∃ ox oy oz sx sy sz,
    _find_first_str t ["structurename"; "structure_name"; "name"; "identifier"]
      = Some (name data) ∧
    _find_first_int t ["xstructureoffset"; "structureoffsetx"; "offsetx"; "posx"]
      = Some ox ∧
    _find_first_int t ["ystructureoffset"; "structureoffsety"; "offsety"; "posy"]
      = Some oy ∧
    _find_first_int t ["zstructureoffset"; "structureoffsetz"; "offsetz"; "posz"]
      = Some oz ∧
    _find_first_int t ["xstructuresize"; "structuresizex"; "sizex"; "size_x"]
      = Some sx ∧
    _find_first_int t ["ystructuresize"; "structuresizey"; "sizey"; "size_y"]
      = Some sy ∧
    _find_first_int t ["zstructuresize"; "structuresizez"; "sizez"; "size_z"]
      = Some sz ∧
    0 < sx ∧ 0 < sy ∧ 0 < sz ∧
    offset data = (ox, oy, oz) ∧ size data = (sx, sy, sz).
Proof.
  unfold _parse_structure_block.
  destruct (_find_first_str t _) as [nm|]; [|naive_solver].
  destruct (_find_first_int t ["xstructureoffset"; _; _; _]) as [ox|];
    [|naive_solver].
  destruct (_find_first_int t ["ystructureoffset"; _; _; _]) as [oy|];
    [|naive_solver].
  destruct (_find_first_int t ["zstructureoffset"; _; _; _]) as [oz|];
    [|naive_solver].
  destruct (_find_first_int t ["xstructuresize"; _; _; _]) as [sx|];
    [|naive_solver].
  destruct (_find_first_int t ["ystructuresize"; _; _; _]) as [sy|];
    [|naive_solver].
  destruct (_find_first_int t ["zstructuresize"; _; _; _]) as [sz|];
    [|naive_solver].
  destruct ((sx <=? 0)%Z || (sy <=? 0)%Z || (sz <=? 0)%Z) eqn:Hs.
  - assert (sx ≤ 0 ∨ sy ≤ 0 ∨ sz ≤ 0)%Z as Hle.
    { rewrite !orb_true_iff, !Z.leb_le in Hs. tauto. }
    split; [done|].
    intros (?&?&?&?&?&?&?&?&?&?&?&?&?&?&?&?&?&?). simplify_eq. lia.
  - apply orb_false_iff in Hs as [Hs Hz]. apply orb_false_iff in Hs as [Hx Hy].
    apply Z.leb_gt in Hx, Hy, Hz. split.
    + intros [= <-]. exists ox, oy, oz, sx, sy, sz. simpl. naive_solver.
    + intros (?&?&?&?&?&?&?&?&?&?&?&?&?&?&?&?&?&?). destruct data.
      simplify_eq/=. done.
Qed.

Lemma resolved_app found1 found2 :
  resolved (found1 ++ found2) = (resolved found1 ++ resolved found2)%list.
Proof. unfold resolved. apply omap_app. Qed.

Lemma resolved_visit_block_entity `{Runtime} world boxes item out :
  resolved (visit_block_entity world boxes item out) =
    (resolved out ++ option_list (candidate_record world boxes item))%list.
Proof.
  destruct item as [[[x y] z] be]. unfold visit_block_entity, candidate_record.
  destruct (in_any_box boxes x y z); simpl; [|by rewrite app_nil_r].
  destruct (_is_structure_block world x y z); simpl; [|by rewrite app_nil_r].
  destruct (nbt be) as [t|]; simpl; [|by rewrite app_nil_r].
  rewrite resolved_app.
  f_equal; unfold resolved; simpl; by destruct (_parse_structure_block t).
Qed.

Lemma resolved_visit_all `{Runtime} world boxes items out :
  resolved (foldl (λ out item, visit_block_entity world boxes item out) out items)
    = (resolved out ++ omap (candidate_record world boxes) items)%list.
Proof.
  revert out. induction items as [|item items IH]; intros out; simpl.
  - by rewrite app_nil_r.
  - rewrite IH, resolved_visit_block_entity, <-app_assoc. f_equal.
    by destruct (candidate_record world boxes item).
Qed.

(** C7. A marker record is produced exactly when the identifier and the six
    integers are found and the three sizes are positive; the record holds
    what was found. A candidate that does not resolve contributes no record
    and the candidates after it are processed as before: the records of a
    chunk are those of its candidates that resolve, in encounter order. *)
Theorem marker_record_iff `{Runtime} (t : tag) :
  (∀ data, _parse_structure_block t = Some data ↔
     ∃ ox oy oz sx sy sz,
       _find_first_str t ["structurename"; "structure_name"; "name"; "identifier"]
         = Some (name data) ∧
       _find_first_int t ["xstructureoffset"; "structureoffsetx"; "offsetx"; "posx"]
         = Some ox ∧
       _find_first_int t ["ystructureoffset"; "structureoffsety"; "offsety"; "posy"]
         = Some oy ∧
       _find_first_int t ["zstructureoffset"; "structureoffsetz"; "offsetz"; "posz"]
         = Some oz ∧
       _find_first_int t ["xstructuresize"; "structuresizex"; "sizex"; "size_x"]
         = Some sx ∧
       _find_first_int t ["ystructuresize"; "structuresizey"; "sizey"; "size_y"]
         = Some sy ∧
       _find_first_int t ["zstructuresize"; "structuresizez"; "sizez"; "size_z"]
         = Some sz ∧
       0 < sx ∧ 0 < sy ∧ 0 < sz ∧
       offset data = (ox, oy, oz) ∧ size data = (sx, sy, sz)) ∧
  (∀ world boxes p out,
     resolved (visit_block_entity world boxes (p, {| nbt := Some t |}) out)
       = (resolved out ++
          option_list (candidate_record world boxes (p, {| nbt := Some t |})))%list) ∧
  (∀ world boxes items out,
     resolved (foldl (λ out item, visit_block_entity world boxes item out)
                 out items)
       = (resolved out ++ omap (candidate_record world boxes) items)%list).
Proof.
  split_and!.
  - intros data. apply parse_structure_block_Some.
  - intros. apply resolved_visit_block_entity.
  - intros. apply resolved_visit_all.
Qed.

Lemma parse_sizes_positive `{Runtime} t data :
  _parse_structure_block t = Some data →
  0 < (size data).1.1 ∧ 0 < (size data).1.2 ∧ 0 < (size data).2.
Proof.
  intros (?&?&?&?&?&?&_&_&_&_&_&_&_&?&?&?&_&->)%parse_structure_block_Some.
  done.
Qed.

Lemma in_int64_range_point q :
  in_int64_range q → point_in_int64 q = true.
Proof.
  destruct q as [[x y] z]. unfold in_int64_range, point_in_int64, in_int64.
  simpl. rewrite !andb_true_iff, !Z.leb_le, !Z.ltb_lt. lia.
Qed.

Lemma marker_box_in_range `{Runtime} (p : Position) (data : MarkerData) :
  0 < (size data).1.1 → 0 < (size data).1.2 → 0 < (size data).2 →
  in_int64_range (p.1.1 + (offset data).1.1, p.1.2 + (offset data).1.2,
                  p.2 + (offset data).2) →
  in_int64_range (p.1.1 + (offset data).1.1 + (size data).1.1,
                  p.1.2 + (offset data).1.2 + (size data).1.2,
                  p.2 + (offset data).2 + (size data).2) →
  marker_box p data
    = Ok {| min_x := p.1.1 + (offset data).1.1;
            min_y := p.1.2 + (offset data).1.2;
            min_z := p.2 + (offset data).2;
            max_x := p.1.1 + (offset data).1.1 + (size data).1.1;
            max_y := p.1.2 + (offset data).1.2 + (size data).1.2;
            max_z := p.2 + (offset data).2 + (size data).2 |}.
Proof.
  destruct p as [[bx by_] bz], data as [nm [[ox oy] oz] [[sx sy] sz]].
  simpl. intros Hx Hy Hz Hlo%in_int64_range_point Hhi%in_int64_range_point.
  unfold marker_box, mkSelectionBox. simpl. rewrite Hlo, Hhi. simpl.
  by rewrite !Z.min_l, !Z.max_r by lia.
Qed.

(** C4, within the range of the host's boxes. For a record that the parser
    produced, at position [p] with offset [o] and size [s], whose corners
    [p + o] and [p + o + s] have signed 64-bit coordinates, the export loop
    derives a box; the box has [p + o] as its minimum and [p + o + s] as its
    maximum, and a voxel is in it exactly when it lies in the half-open box
    [[p + o, p + o + s)]. *)
Theorem marker_target_box `{Runtime} (t : tag) (data : MarkerData)
    (p : Position) :
  _parse_structure_block t = Some data →
  let lo := (p.1.1 + (offset data).1.1, p.1.2 + (offset data).1.2,
             p.2 + (offset data).2) in
  let hi := (lo.1.1 + (size data).1.1, lo.1.2 + (size data).1.2,
             lo.2 + (size data).2) in
  in_int64_range lo → in_int64_range hi →
  ∃ box : SelectionBox,
    marker_box p data = Ok box ∧
    (min_x box, min_y box, min_z box) = lo ∧
    (max_x box, max_y box, max_z box) = hi ∧
    ∀ x y z,
      in_box box x y z = true ↔ in_half_open lo (size data) x y z.
Proof.
  intros Hp lo hi Hlo Hhi. apply parse_sizes_positive in Hp.
  destruct Hp as (Hx & Hy & Hz).
  eexists. split; [by apply marker_box_in_range|].
  split; [done|split; [done|]].
  intros x y z. unfold in_box, in_half_open, lo. simpl.
  destruct (size data) as [[sx sy] sz]. simpl.
  rewrite !andb_true_iff, !Z.leb_le, !Z.ltb_lt. lia.
Qed.

(** Scenario A *)
Lemma marker_target_box_scenario_a :
  let data :=
    {| name := "mystructure:house"; offset := (0, 1, 0); size := (3, 2, 3) |} in
  _parse_structure_block (H := sample_runtime) scenario_a_tag = Some data ∧
  ∃ box : SelectionBox,
    marker_box (H := sample_runtime) (10, 64, 10) data = Ok box ∧
    (min_x box, min_y box, min_z box) = (10, 65, 10) ∧
    (max_x box, max_y box, max_z box) = (13, 67, 13) ∧
    ∀ x y z,
      in_box box x y z = true ↔ in_half_open (10, 65, 10) (3, 2, 3) x y z.
Proof.
  intros data.
  assert (Hp : _parse_structure_block (H := sample_runtime) scenario_a_tag
                 = Some data) by (vm_compute; reflexivity).
  split; [exact Hp|].
  apply (marker_target_box (H := sample_runtime) scenario_a_tag data
           (10, 64, 10) Hp); unfold in_int64_range; simpl; lia.
Defined.

(** C4, as stated, fails. The marker of [huge_size_tag] resolves, with the
    size that [int] makes of the double [1e30]; at position [(12, 64, 10)]
    the corner [p + o + s] is beyond 64 bits, the constructor of the box
    raises, and no box is derived. *)
Lemma marker_target_box_beyond_int64 :
  _parse_structure_block (H := sample_runtime) huge_size_tag
    = Some huge_size_data ∧
  marker_box (H := sample_runtime) (12, 64, 10) huge_size_data
    = Raise (OtherError "TypeError") ∧
  ¬ ∃ box : SelectionBox,
      marker_box (H := sample_runtime) (12, 64, 10) huge_size_data = Ok box ∧
      (max_x box, max_y box, max_z box)
        = (12 + 0 + 1000000000000000019884624838656, 64 + 1 + 2, 10 + 0 + 3).
Proof.
  split; [by vm_compute|]. split; [by vm_compute|].
  intros (box & Hbox & _). vm_compute in Hbox. discriminate.
Qed.

(** ** The locator *)

Lemma walk_compound items :
  walk (TCompound items) = items ≫= λ kv, kv :: walk kv.2.
Proof.
  induction items as [|[k v] rest IH]; [done|].
  rewrite bind_cons, <-IH. done.
Qed.

Lemma walk_list items :
  walk (TList items)
    = mjoin (imap (λ i v, (str_of_nat i, v) :: walk v) items).
Proof.
  simpl.
  enough (∀ i,
    (fix children (i : nat) (items : list tag) {struct items} :=
       match items with
       | [] => []
       | v :: rest => (str_of_nat i, v) :: walk v ++ children (S i) rest
       end) i items
    = mjoin (imap (λ j v, (str_of_nat (i + j), v) :: walk v) items)) as Hgen.
  { apply Hgen. }
  induction items as [|v rest IH]; intros i; [done|].
  rewrite imap_cons, IH, Nat.add_0_r. csimpl.
  do 3 f_equal. apply imap_ext. intros j w _. simpl.
  by rewrite Nat.add_succ_r.
Qed.

Lemma first_str_loop_head key_substrings ys :
  first_str_loop key_substrings ys
    = head (omap (accepted_str key_substrings)
              ((λ y, (y.1.2, y.2)) <$> ys)).
Proof.
  induction ys as [|[[path k] v] ys IH]; [done|].
  simpl. unfold accepted_str at 1. simpl.
  destruct (key_matches key_substrings k); [|done].
  destruct v; try done.
  by case_decide.
Qed.

Lemma first_int_loop_head `{Runtime} key_substrings ys :
  first_int_loop key_substrings ys
    = head (omap (accepted_int key_substrings)
              ((λ y, (y.1.2, y.2)) <$> ys)).
Proof.
  induction ys as [|[[path k] v] ys IH]; [done|].
  simpl. unfold accepted_int at 1. simpl.
  destruct (key_matches key_substrings k); [|done].
  by destruct (int_of_value v).
Qed.

(** C6, at a list tag below a compound. The claim has the traversal descend
    into a sequence node, as the generator's own description has it ("all
    nested tags in an NBT compound/list tree"); the generator yields a list
    tag that is a child and passes on without entering it. For the tag
    [nested_list_tag], whose name and size lie in a compound inside the list
    ["data"], the claim's traversal reaches the name [" house "] and the
    size [3], so the first accepted string is ["house"] and the first
    accepted integer is [3]; the generator yields the one node ["data"], and
    [_find_first_str] and [_find_first_int] return nothing. *)
Theorem locator_skips_nested_lists :
  (∀ k l, _iter_nbt_tree (TCompound [(k, TList l)]) "" = [(k, k, TList l)]) ∧
  (∀ l l', _iter_nbt_tree (TList [TList l; TList l']) ""
           = [("[0]", "0", TList l); ("[1]", "1", TList l')]) ∧
  walk nested_list_tag
    = [("data", TList [TCompound [("structureName", TStr " house ");
                                  ("xStructureSize", TInt 3)]]);
       ("0", TCompound [("structureName", TStr " house ");
                        ("xStructureSize", TInt 3)]);
       ("structureName", TStr " house ");
       ("xStructureSize", TInt 3)] ∧
  head (omap (accepted_str ["name"]) (walk nested_list_tag)) = Some "house" ∧
  head (omap (accepted_int (H := sample_runtime) ["size"]) (walk nested_list_tag))
    = Some 3 ∧
  _find_first_str nested_list_tag ["name"] = None ∧
  _find_first_int (H := sample_runtime) nested_list_tag ["size"] = None ∧
  _parse_structure_block (H := sample_runtime) nested_list_tag = None.
Proof.
  split_and!; by vm_compute.
Qed.

(** ** The export loop *)

Lemma export_record_Ok `{Runtime} `{HostIO Host} world options total i
    record (run : Run Host) box :
  marker_box record.1 record.2 = Ok box →
  ∃ run' line,
    export_record world options total i record run = Ok run' ∧
    yielded run' = (yielded run ++ [progress i total])%list ∧
    printed run' = (printed run ++ [line])%list ∧
    line_of total (fmt_raw options) i record line.
Proof.
  destruct record as [p data]. simpl. intros Hbox. unfold export_record.
  rewrite Hbox. simpl.
  destruct (export_attempt _ _ _ _ _) as [h1 [out_path|e]];
    eexists _, _; (split; [done|]); simpl; done.
Qed.

Lemma export_record_Raise `{Runtime} `{HostIO Host} world options total i
    record (run : Run Host) e :
  marker_box record.1 record.2 = Raise e →
  export_record world options total i record run = Raise e.
Proof.
  destruct record as [p data]. simpl. intros Hbox. unfold export_record.
  by rewrite Hbox.
Qed.

(** The loop, whichever way it ends: it has gone through the first [n]
    records, with a line and a yield for each, and either these are all the
    records, or the box of the next one could not be built. *)
Lemma export_loop_spec `{Runtime} `{HostIO Host} world options total
    parsed i (run run' : Run Host) oe :
  export_loop world options total i parsed run = (run', oe) →
  ∃ (n : nat) lines,
    (n ≤ length parsed)%nat ∧
    yielded run'
      = (yielded run ++ ((λ i, progress i total) <$> seq i n))%list ∧
    printed run' = (printed run ++ lines)%list ∧
    Forall2 (λ ir line, line_of total (fmt_raw options) ir.1 ir.2 line)
      (zip (seq i n) parsed) lines ∧
    match oe with
    | None => n = length parsed
    | Some e =>
        ∃ record, parsed !! n = Some record ∧
                  marker_box record.1 record.2 = Raise e
    end.
Proof.
  revert i run. induction parsed as [|r parsed IH]; intros i run; simpl.
  - intros [= <- <-]. exists 0%nat, []. simpl. by rewrite !app_nil_r.
  - destruct (marker_box r.1 r.2) as [box|e] eqn:Hbox.
    + destruct (export_record_Ok world options total i r run box Hbox)
        as (run1 & line & -> & Hy & Hp & Hline).
      intros (n & lines & Hn & Hy' & Hp' & Hall & Hoe)%IH.
      exists (S n), (line :: lines). split_and!.
      * lia.
      * rewrite Hy', Hy. simpl. by rewrite <-app_assoc.
      * rewrite Hp', Hp. by rewrite <-app_assoc.
      * simpl. by constructor.
      * destruct oe; [|by rewrite Hoe]. done.
    + rewrite (export_record_Raise world options total i r run e Hbox).
      intros [= <- <-]. exists 0%nat, []. simpl. rewrite !app_nil_r.
      split_and!; try done; [lia|]. by exists r.
Qed.

Lemma progress_lt total i j :
  (i < j)%nat → (progress i total < progress j total)%Q.
Proof.
  intros Hlt. unfold progress, Qlt. simpl.
  apply Z.mul_lt_mono_pos_r; lia.
Qed.

Lemma progress_sorted total i n :
  StronglySorted Qlt ((λ i, progress i total) <$> seq i n).
Proof.
  revert i. induction n as [|n IH]; intros i; simpl; constructor.
  - apply IH.
  - apply Forall_fmap, Forall_forall. intros j Hj%elem_of_seq.
    apply progress_lt. lia.
Qed.

Lemma progress_full total : (0 < total)%nat → (progress total total == 1)%Q.
Proof. intros Hpos. unfold progress, Qeq. simpl. lia. Qed.

(** C8, at a record whose box cannot be built. The box of a record is
    built before the [try] of the loop body, so an exception of its
    constructor is not caught at the record boundary: it ends the loop, with
    the records that follow left out. In [three_marker_world] three markers
    resolve, the second with the size [1e30]. The first record's attempt
    raises inside the [try]: the exception is caught, becomes a [Failed]
    line, and [1/3] is yielded. The second record's box raises: the run
    ends there with that exception, after the one yield; the third record
    gets no line and no yield, and the value 1 is never reported. *)
Theorem export_run_aborts_on_box_failure :
  let out :=
    export_structures_from_structure_blocks (H := sample_runtime)
      (H0 := sample_host_io) three_marker_world marker_selection
      mcstructure_options [] in
  (found ← _iter_structure_blocks (H := sample_runtime) three_marker_world
             marker_selection;
   Ok (resolved found))
    = Ok [((10, 64, 10), scenario_a_data); ((12, 64, 10), huge_size_data);
          ((14, 64, 10), scenario_a_data)] ∧
  out.2 = Some (OtherError "TypeError") ∧
  yielded out.1 = [progress 1 3] ∧
  printed out.1
    = [Exporting 3 "out" "mcstructure";
       Failed 1 3 "mystructure:house" (10, 64, 10) (OtherError "no encoder")] ∧
  ¬ (∃ q, q ∈ yielded out.1 ∧ (q == 1)%Q) ∧
  (∀ (R : Runtime) Host (IO : HostIO Host) world options total i record rest
     (run : Run Host) e,
     marker_box record.1 record.2 = Raise e →
     export_loop world options total i (record :: rest) run = (run, Some e)).
Proof.
  split_and!.
  - by vm_compute.
  - by vm_compute.
  - by vm_compute.
  - by vm_compute.
  - intros (q & Hq & Hone). vm_compute in Hq.
    apply list_elem_of_singleton in Hq as ->. vm_compute in Hone. discriminate.
  - intros R Host IO world options total i record rest run e Hbox. simpl.
    by rewrite (export_record_Raise world options total i record run e Hbox).
Qed.

(** ** Entities *)

Lemma py_int_of_float_nonneg m e :
  py_int_of_float (S754_finite false m e) = float_floor (S754_finite false m e).
Proof. done. Qed.

Lemma between_int_of_float lo hi f :
  Z_le_float lo f = true → float_lt_Z f hi = true →
  ∃ i, py_int_of_float f = Some i.
Proof.
  unfold Z_le_float, float_lt_Z.
  destruct f as [s|[]| |s m e]; simpl; try done; eauto.
Qed.

Lemma float_in_box_int_of_float box ex ey ez :
  float_in_box box ex ey ez = true →
  ∃ ix iy iz,
    py_int_of_float ex = Some ix ∧ py_int_of_float ey = Some iy ∧
    py_int_of_float ez = Some iz.
Proof.
  unfold float_in_box. rewrite !andb_true_iff.
  intros [[[[[Hx Hx'] Hy] Hy'] Hz] Hz'].
  destruct (between_int_of_float _ _ _ Hx Hx') as [ix ?].
  destruct (between_int_of_float _ _ _ Hy Hy') as [iy ?].
  destruct (between_int_of_float _ _ _ Hz Hz') as [iz ?].
  by exists ix, iy, iz.
Qed.

(** The entry of an entity inside the box: the block position is the
    truncation of the float position, minus [box.min]. *)
Lemma visit_entity_inside `{Runtime} box ent ent_nbt ex ey ez rx ry rz out :
  entity_nbt ent = Some ent_nbt →
  entity_position ent_nbt = Some (ex, ey, ez) →
  float_in_box box ex ey ez = true →
  float_sub_Z ex (min_x box) = Ok rx →
  float_sub_Z ey (min_y box) = Ok ry →
  float_sub_Z ez (min_z box) = Ok rz →
  ∃ ix iy iz,
    py_int_of_float ex = Some ix ∧ py_int_of_float ey = Some iy ∧
    py_int_of_float ez = Some iz ∧
    visit_entity box ent out =
      Ok (out ++ [{| entity_pos := (rx, ry, rz);
                     blockPos := (ix - min_x box, iy - min_y box, iz - min_z box);
                     entity_data := ent_nbt |}])%list.
Proof.
  intros Hnbt Hpos Hin Hrx Hry Hrz.
  destruct (float_in_box_int_of_float _ _ _ _ Hin) as (ix & iy & iz & Hix & Hiy & Hiz).
  exists ix, iy, iz. split_and!; try done.
  unfold visit_entity. rewrite Hnbt, Hpos, Hin. simpl.
  rewrite Hrx, Hry, Hrz. simpl. unfold int_of_float.
  by rewrite Hix, Hiy, Hiz.
Qed.

(** C1, at the input where the code departs from it. An entity at
    [(-0.5, 0.5, 0.5)] is inside the box [[(-1,0,0), (0,1,1))]; the floor
    of [-0.5] is [-1], so the relative block position of the claim is
    [(0, 0, 0)]; the exporter writes [(1, 0, 0)], and the relative float
    position [(0.5, 0.5, 0.5)]. *)
Theorem entity_block_position_truncates :
  float_in_box unit_box_at_minus_one minus_half half half = true ∧
  float_floor minus_half = Some (-1) ∧
  py_int_of_float minus_half = Some 0 ∧
  ∃ data,
    collect_entities (H := sample_runtime) sample_world unit_box_at_minus_one
      = Ok [{| entity_pos := (half, half, half);
               blockPos := (1, 0, 0);
               entity_data := data |}].
Proof. split_and!; try done. eexists. vm_compute. reflexivity. Qed.

(** Scenario D: the position [(10.5, 65.0, 10.9)] in the box
    [[(10,65,10), (13,67,13))] has the relative block position [(0,0,0)];
    the relative float position is [(0.5, 0.0, 10.9 - 10)], the last
    component being the binary64 difference [8106479329266896 * 2^-53]. *)
Example entity_scenario_d :
  let box := {| min_x := 10; min_y := 65; min_z := 10;
                max_x := 13; max_y := 67; max_z := 13 |} in
  let ent := {| entity_nbt := Some (TCompound
                  [("Pos", TList [TFloat (f64 false 5910974510923776 (-49));
                                  TFloat (f64 false 4573968371548160 (-46));
                                  TFloat (f64 false 6136154492292301 (-49))])]) |} in
  (λ e, (entity_pos e, blockPos e)) <$>
    default [] (match visit_entity (H := sample_runtime) box ent [] with
                | Ok l => Some l | Raise _ => None end)
  = [((half, S754_zero false, f64 false 8106479329266896 (-53)), (0, 0, 0))].
Proof. vm_compute. reflexivity. Qed.

(** ** Examples of the scan and of the palette *)

Example scan_order_example :
  scan_order {| min_x := 0; min_y := 0; min_z := 0;
                max_x := 2; max_y := 2; max_z := 2 |}
  = [(0, 0, 0); (1, 0, 0); (0, 0, 1); (1, 0, 1);
     (0, 1, 0); (1, 1, 0); (0, 1, 1); (1, 1, 1)].
Proof. reflexivity. Qed.

Example push_all_example :
  (push_all [stone; marker_block "a"; stone; air; marker_block "a"]
     palette_empty).1 = [0; 1; 0; 2; 1]%nat.
Proof. vm_compute. reflexivity. Qed.

Example state_key_order_independent :
  _state_key {| namespace := Some "m"; base_name := Some "door";
                properties := Some [("open", "true"); ("half", "upper")] |}
  = _state_key {| namespace := Some "m"; base_name := Some "door";
                  properties := Some [("half", "upper"); ("open", "true")] |}.
Proof. vm_compute. reflexivity. Qed.

Lemma blocks_list_in_scan_order_witness :
  let blocks_at : Position → Block :=
    λ '(x, y, z), if decide (x = -1 ∧ y = 0 ∧ z = 0) then stone else air in
  (∀ x y z, in_box two_voxel_box x y z = true →
            get_block sample_world x y z = Ok (blocks_at (x, y, z))) ∧
  build_structure_document (H := sample_runtime) sample_world two_voxel_box
    false false
  = Ok {| doc_size := (2, 1, 1);
          doc_palette := [TCompound [("Name", TStr "universal_minecraft:stone")]];
          doc_blocks := [{| pos := (0, 0, 0); state := 0; extra := None |}];
          doc_entities := [] |}.
Proof.
  intros blocks_at.
  assert (Hread : ∀ x y z, in_box two_voxel_box x y z = true →
            get_block sample_world x y z = Ok (blocks_at (x, y, z)))
    by (intros; reflexivity).
  split; [exact Hread|].
  pose proof (blocks_list_in_scan_order (H := sample_runtime) sample_world
                two_voxel_box blocks_at Hread) as (_ & _ & _ & Hdoc & _).
  rewrite (Hdoc false). vm_compute. reflexivity.
Defined.

(** * Further properties of the exporter *)

(** ** Names *)

Lemma after_colon_app_r ns rest :
  ":"%char ∉ list_ascii_of_string ns →
  after_colon (ns +:+ ":" +:+ rest) = Some rest.
Proof.
  induction ns as [|c ns IH]; simpl; intros Hns.
  - done.
  - apply not_elem_of_cons in Hns as [Hc Hns].
    rewrite decide_False by done. by apply IH.
Qed.

Lemma after_colon_None s :
  after_colon s = None ↔ ":"%char ∉ list_ascii_of_string s.
Proof.
  induction s as [|c s IH]; simpl.
  - split; [intros _; apply not_elem_of_nil|done].
  - case_decide as Hc.
    + subst c. split; [done|]. intros []. left.
    + rewrite IH, not_elem_of_cons. naive_solver.
Qed.

(** [_strip_namespace] removes the text up to the first colon and that
    colon, whatever follows it, and returns an identifier without a colon
    as it is. *)
Theorem strip_namespace_first_colon (identifier : string) :
  (":"%char ∉ list_ascii_of_string identifier →
   _strip_namespace identifier = identifier) ∧
  (∀ ns rest,
     ":"%char ∉ list_ascii_of_string ns →
     identifier = ns +:+ ":" +:+ rest →
     _strip_namespace identifier = rest).
Proof.
  unfold _strip_namespace. split.
  - intros Hno. apply after_colon_None in Hno. by rewrite Hno.
  - intros ns rest Hns ->. by rewrite after_colon_app_r.
Qed.

(** ** Palette keys and palette entries *)

(** Two voxel types have the same palette key exactly when their qualified
    names are equal and their properties are the same pairs in some order,
    absent properties counting as none. *)
Theorem state_key_eq_iff (b b' : Block) :
  _state_key b = _state_key b' ↔
  qualified_name b = qualified_name b' ∧
  getattr (properties b) [] ≡ₚ getattr (properties b') [].
Proof.
  unfold _state_key. split.
  - intros [= Hn Hs]. split; [done|].
    unfold sorted_items in Hs.
    rewrite <-(merge_sort_Permutation pair_le (getattr (properties b) [])).
    rewrite Hs. apply merge_sort_Permutation.
  - intros [-> Hp]. f_equal. by apply sorted_items_perm.
Qed.

Lemma java_state_key b b' :
  _universal_block_to_java_state b = _universal_block_to_java_state b' →
  _state_key b = _state_key b'.
Proof.
  unfold _universal_block_to_java_state, _state_key.
  destruct (getattr (properties b) []) as [|kv props] eqn:Hb,
           (getattr (properties b') []) as [|kv' props'] eqn:Hb';
    intros Heq; try done.
  - injection Heq as Hn. by rewrite Hn.
  - injection Heq as Hn Hkv Hprops. rewrite Hn. f_equal.
    assert (kv :: props = kv' :: props') as ->; [|done].
    assert (Inj (=) (=) (λ kv : string * string, (kv.1, TStr kv.2))) as Hinj.
    { intros [k1 v1] [k2 v2] [= -> ->]. done. }
    f_equal.
    + destruct kv, kv'. simpl in *. congruence.
    + by apply (inj (fmap (M := list)
                      (λ kv : string * string, (kv.1, TStr kv.2)))).
Qed.

Lemma push_all_palette_reps bs keys st :
  palette_inv keys st →
  (∃ reps, palette st = _universal_block_to_java_state <$> reps ∧
           keys = _state_key <$> reps) →
  ∃ reps,
    palette (push_all bs st).2 = _universal_block_to_java_state <$> reps ∧
    first_seen_from keys (_state_key <$> bs) = _state_key <$> reps.
Proof.
  revert keys st. induction bs as [|b bs IH]; intros keys st Hinv Hreps;
    [done|].
  simpl. destruct (get_state_index_inv keys st b Hinv) as [Hinv1 _].
  simpl in Hinv1.
  assert (∃ reps,
    palette (get_state_index b st).2 = _universal_block_to_java_state <$> reps ∧
    (if decide (_state_key b ∈ keys) then keys else keys ++ [_state_key b])%list
      = _state_key <$> reps) as Hreps1.
  { destruct Hreps as (reps & Hpal & Hkeys). case_decide as Hk.
    - apply list_elem_of_lookup in Hk as [i Hi].
      rewrite (get_state_index_known keys st b i) by done. eauto.
    - rewrite (get_state_index_novel keys st b) by done. simpl.
      exists (reps ++ [b])%list. rewrite !fmap_app, Hpal, Hkeys. done. }
  specialize (IH _ _ Hinv1 Hreps1).
  destruct (get_state_index b st) as [i st1]. simpl in *.
  by destruct (push_all bs st1).
Qed.

Lemma push_all_palette_NoDup bs :
  NoDup (palette (push_all bs palette_empty).2).
Proof.
  destruct (push_all_palette_reps bs [] palette_empty palette_inv_empty)
    as (reps & Hpal & Hkeys).
  { by exists []. }
  assert (NoDup (_state_key <$> reps)) as Hnd.
  { rewrite <-Hkeys. apply first_seen_from_NoDup. constructor. }
  rewrite Hpal. apply NoDup_alt. intros i j t Hi Hj.
  apply list_lookup_fmap_Some in Hi as (r & -> & Hr).
  apply list_lookup_fmap_Some in Hj as (r' & Ht & Hr').
  apply java_state_key in Ht.
  eapply (NoDup_lookup _ i j); [exact Hnd| |].
  - rewrite list_lookup_fmap, Hr. done.
  - rewrite list_lookup_fmap, Hr'. simpl. by rewrite Ht.
Qed.

(** ** Loops, again *)

Lemma for_each_Ok_each {A S} (l : list A) (body : A → S → result S) s s' :
  for_each l body s = Ok s' →
  ∀ a, a ∈ l → ∃ s1 s2, body a s1 = Ok s2.
Proof.
  revert s. induction l as [|a0 l IH]; intros s Hrun a Ha; simpl in *.
  - by apply elem_of_nil in Ha.
  - destruct (body a0 s) as [s1|e] eqn:Hb; simpl in Hrun; [|done].
    apply elem_of_cons in Ha as [->|Ha]; eauto.
Qed.

Lemma for_each_inv {A S} (P : S → Prop) (l : list A)
    (body : A → S → result S) s s' :
  P s →
  (∀ a s1 s2, a ∈ l → P s1 → body a s1 = Ok s2 → P s2) →
  for_each l body s = Ok s' → P s'.
Proof.
  revert s. induction l as [|a l IH]; intros s Hs Hstep Hrun; simpl in *.
  - by simplify_eq.
  - destruct (body a s) as [s1|e] eqn:Hb; simpl in Hrun; [|done].
    eapply IH; [| |exact Hrun].
    + eapply Hstep; [left|exact Hs|exact Hb].
    + intros. eapply Hstep; eauto. by right.
Qed.

(** ** The document, whenever one is built *)

Lemma push_all_index_bound bs i :
  i ∈ (push_all bs palette_empty).1 ↔
  (i < length (palette (push_all bs palette_empty).2))%nat.
Proof.
  destruct (push_all_inv bs [] palette_empty palette_inv_empty)
    as [(Hnd & Hlen & Hidx) Hall].
  rewrite Hlen. split.
  - intros [j Hj]%list_elem_of_lookup.
    destruct (Forall2_lookup_r _ _ _ _ _ Hall Hj) as (b & Hb & Hk).
    by eapply lookup_lt_Some.
  - intros Hi. destruct (lookup_lt_is_Some_2 _ i Hi) as [k Hk].
    assert (k ∈ _state_key <$> bs) as Hin.
    { assert (k ∈ first_seen_from [] (_state_key <$> bs)) as Hkin
        by (eapply list_elem_of_lookup_2; eauto).
      apply first_seen_from_elem_of in Hkin as [Hkin|Hkin]; [|done].
      by apply elem_of_nil in Hkin. }
    apply list_elem_of_fmap in Hin as (b & -> & Hb).
    apply list_elem_of_lookup in Hb as [j Hb].
    destruct (Forall2_lookup_l _ _ _ _ _ Hall Hb) as (i' & Hi' & Hk').
    assert (i = i') as -> by (eapply NoDup_lookup; eauto).
    eapply list_elem_of_lookup_2; eauto.
Qed.

Lemma scan_box_Ok_readable `{Runtime} world box be_map r :
  scan_box world box be_map false = Ok r →
  ∀ x y z, in_box box x y z = true → ∃ blk, get_block world x y z = Ok blk.
Proof.
  rewrite scan_box_flat. intros Hrun x y z Hin%elem_of_scan_order.
  destruct (for_each_Ok_each _ _ _ _ Hrun _ Hin) as (s1 & s2 & Hv).
  unfold visit_voxel in Hv.
  destruct (get_block world x y z) as [blk|e]; [eauto|done].
Qed.

(** The shape of every scan that ends: the kept voxels are a sublist of the
    scan order, and the palette and the indices are those of pushing their
    blocks. *)
Lemma scan_box_Ok_repr `{Runtime} world box be_map remove_blocks r :
  scan_box world box be_map remove_blocks = Ok r →
  ∃ kept bs,
    kept `sublist_of` scan_order box ∧ length bs = length kept ∧
    r = ((push_all bs palette_empty).2,
         zip_with (block_entry box be_map) kept (push_all bs palette_empty).1).
Proof.
  destruct remove_blocks.
  - rewrite scan_box_removed. intros [= <-]. exists [], [].
    split_and!; [apply sublist_nil_l|done..].
  - intros Hrun.
    pose (blocks_at := λ p : Position,
            match get_block world p.1.1 p.1.2 p.2 with
            | Ok b => b
            | Raise _ => air
            end).
    assert (Hread : ∀ x y z, in_box box x y z = true →
              get_block world x y z = Ok (blocks_at (x, y, z))).
    { intros x y z Hin.
      destruct (scan_box_Ok_readable _ _ _ _ Hrun x y z Hin) as [blk Hblk].
      unfold blocks_at. simpl. by rewrite Hblk. }
    rewrite (scan_box_readable world box be_map blocks_at Hread), scan_steps_spec in Hrun.
    simplify_eq.
    exists (filter (λ p, is_air (blocks_at p) = false) (scan_order box)),
      (blocks_at <$> filter (λ p, is_air (blocks_at p) = false) (scan_order box)).
    split_and!; [apply sublist_filter|by rewrite length_fmap|done].
Qed.

Lemma build_structure_document_repr `{Runtime} world box inc remove_blocks doc :
  build_structure_document world box inc remove_blocks = Ok doc →
  ∃ kept bs be_map,
    kept `sublist_of` scan_order box ∧ length bs = length kept ∧
    doc_size doc = (max_x box - min_x box, max_y box - min_y box,
                    max_z box - min_z box) ∧
    doc_palette doc = palette (push_all bs palette_empty).2 ∧
    doc_blocks doc
      = zip_with (block_entry box be_map) kept (push_all bs palette_empty).1.
Proof.
  unfold build_structure_document.
  destruct (_collect_block_entities_in_box world box) as [be_map|e];
    simpl; [|done].
  destruct (scan_box world box be_map remove_blocks) as [r|e] eqn:Hscan;
    simpl; [|done].
  destruct (if inc then _ else _); simpl; [|done].
  intros [= <-]. simpl.
  destruct (scan_box_Ok_repr _ _ _ _ _ Hscan) as (kept & bs & Hsub & Hlen & ->).
  exists kept, bs, be_map. done.
Qed.

Lemma elem_of_zip_with_block_entry `{Runtime} box be_map kept idxs e :
  e ∈ zip_with (block_entry box be_map) kept idxs →
  ∃ p i, p ∈ kept ∧ i ∈ idxs ∧ e = block_entry box be_map p i.
Proof.
  intros (p & i & -> & Hp & Hi)%elem_of_zip_with. eauto.
Qed.

(** Every block entry of a document refers to an entry of its palette and
    lies inside the document: its state is below the palette's length and
    each coordinate of its position is at least 0 and below the size. *)
Theorem block_entries_within_document `{Runtime} (world : World)
    (box : SelectionBox) (include_entities remove_blocks : bool)
    (doc : StructureDocument) :
  build_structure_document world box include_entities remove_blocks = Ok doc →
  Forall (λ e,
      (state e < length (doc_palette doc))%nat ∧
      0 ≤ (pos e).1.1 < (doc_size doc).1.1 ∧
      0 ≤ (pos e).1.2 < (doc_size doc).1.2 ∧
      0 ≤ (pos e).2 < (doc_size doc).2)
    (doc_blocks doc).
Proof.
  intros (kept & bs & be_map & Hsub & Hlen & -> & -> & ->)
    %build_structure_document_repr.
  apply Forall_forall. intros e (p & i & Hp & Hi & ->)
    %elem_of_zip_with_block_entry.
  destruct p as [[x y] z]. simpl.
  split; [by apply push_all_index_bound|].
  assert ((x, y, z) ∈ scan_order box) as Hin
    by (by apply (sublist_subseteq _ _ Hsub)).
  apply elem_of_scan_order in Hin. unfold in_box in Hin.
  rewrite !andb_true_iff, !Z.leb_le, !Z.ltb_lt in Hin. lia.
Qed.

(** The palette of a document holds no state twice, and each of its entries
    is the state of at least one block. *)
Theorem palette_distinct_and_used `{Runtime} (world : World)
    (box : SelectionBox) (include_entities remove_blocks : bool)
    (doc : StructureDocument) :
  build_structure_document world box include_entities remove_blocks = Ok doc →
  NoDup (doc_palette doc) ∧
  ∀ i, (i < length (doc_palette doc))%nat →
       ∃ e, e ∈ doc_blocks doc ∧ state e = i.
Proof.
  intros (kept & bs & be_map & Hsub & Hlen & _ & -> & ->)
    %build_structure_document_repr.
  split; [apply push_all_palette_NoDup|].
  intros i Hi%push_all_index_bound.
  apply list_elem_of_lookup in Hi as [j Hj].
  assert (is_Some (kept !! j)) as [p Hp].
  { apply lookup_lt_is_Some. rewrite <-Hlen, <-(push_all_length bs palette_empty).
    by eapply lookup_lt_Some. }
  exists (block_entry box be_map p i). split.
  - eapply list_elem_of_lookup_2. rewrite lookup_zip_with, Hp. simpl.
    by rewrite Hj.
  - by destruct p as [[x y] z].
Qed.

Lemma length_bind_const {A B} (l : list A) (f : A → list B) n :
  (∀ a, length (f a) = n) → length (l ≫= f) = (length l * n)%nat.
Proof.
  intros Hf. induction l as [|a l IH]; [done|].
  rewrite bind_cons, length_app, Hf, IH. simpl. lia.
Qed.

Lemma length_range a b : length (range a b) = Z.to_nat (b - a).
Proof. apply length_seqZ. Qed.

Lemma length_scan_order box :
  length (scan_order box)
    = (Z.to_nat (max_y box - min_y box) * (Z.to_nat (max_z box - min_z box) *
       Z.to_nat (max_x box - min_x box)))%nat.
Proof.
  unfold scan_order.
  rewrite (length_bind_const _ _
             (Z.to_nat (max_z box - min_z box) * Z.to_nat (max_x box - min_x box))).
  { by rewrite length_range. }
  intros y.
  rewrite (length_bind_const _ _ (Z.to_nat (max_x box - min_x box))).
  { by rewrite length_range. }
  intros z. rewrite (length_bind_const _ _ 1%nat); [|done].
  rewrite length_range. lia.
Qed.

(** No two block entries of a document have the same position, and there
    are at most as many as the box has voxels. *)
Theorem block_positions_distinct `{Runtime} (world : World)
    (box : SelectionBox) (include_entities remove_blocks : bool)
    (doc : StructureDocument) :
  build_structure_document world box include_entities remove_blocks = Ok doc →
  NoDup (pos <$> doc_blocks doc) ∧
  (length (doc_blocks doc)
   ≤ Z.to_nat (max_x box - min_x box) * Z.to_nat (max_y box - min_y box) *
     Z.to_nat (max_z box - min_z box))%nat.
Proof.
  intros (kept & bs & be_map & Hsub & Hlen & _ & _ & ->)
    %build_structure_document_repr.
  assert (length (push_all bs palette_empty).1 = length kept) as Hidx
    by (by rewrite push_all_length).
  assert (pos <$> zip_with (block_entry box be_map) kept
                    (push_all bs palette_empty).1
          = (λ p : Position, (p.1.1 - min_x box, p.1.2 - min_y box,
                              p.2 - min_z box)) <$> kept) as ->.
  { revert Hidx. generalize (push_all bs palette_empty).1 as idxs.
    clear. induction kept as [|[[x y] z] kept IH]; intros [|i idxs] Hidx;
      simplify_eq/=; [done|]. f_equal. by apply IH. }
  split.
  - apply NoDup_fmap_2.
    + intros [[x1 y1] z1] [[x2 y2] z2] [= ? ? ?]. f_equal; [f_equal|]; lia.
    + eapply sublist_NoDup; [apply NoDup_scan_order|exact Hsub].
  - rewrite length_zip_with, Hidx, Nat.min_id.
    apply sublist_length in Hsub. rewrite length_scan_order in Hsub. lia.
Qed.

(** The document exported for a marker record has the size of the record,
    when the corners of the record's box have signed 64-bit coordinates. *)
Theorem document_size_is_marker_size `{Runtime} (world : World) (t : tag)
    (data : MarkerData) (p : Position)
    (include_entities remove_blocks : bool) (box : SelectionBox)
    (doc : StructureDocument) :
  _parse_structure_block t = Some data →
  in_int64_range (p.1.1 + (offset data).1.1, p.1.2 + (offset data).1.2,
                  p.2 + (offset data).2) →
  in_int64_range (p.1.1 + (offset data).1.1 + (size data).1.1,
                  p.1.2 + (offset data).1.2 + (size data).1.2,
                  p.2 + (offset data).2 + (size data).2) →
  marker_box p data = Ok box →
  build_structure_document world box include_entities remove_blocks = Ok doc →
  doc_size doc = size data.
Proof.
  intros (Hx & Hy & Hz)%parse_sizes_positive Hlo Hhi Hbox
    (kept & bs & be_map & _ & _ & -> & _ & _)%build_structure_document_repr.
  rewrite (marker_box_in_range p data Hx Hy Hz Hlo Hhi) in Hbox.
  injection Hbox as <-. simpl.
  destruct (size data) as [[sx sy] sz]. simpl. f_equal; [f_equal|]; lia.
Qed.

(** ** Chunks that fail to load *)

Lemma loaded_block_entities_cons world cx cz locs :
  loaded_block_entities world ((cx, cz) :: locs) =
    (match get_chunk world cx cz with
     | Ok chunk => getattr (block_entities chunk) []
     | Raise _ => []
     end ++ loaded_block_entities world locs)%list.
Proof. done. Qed.

Lemma for_each_chunk_step {S} (world : World) cx cz (locs : list (Z * Z))
    (g : Chunk → S → S) (s : S) :
  for_each ((cx, cz) :: locs)
    (λ '(cx, cz), with_chunk world cx cz (λ chunk out, Ok (g chunk out))) s
  = match get_chunk world cx cz with
    | Ok chunk =>
        for_each locs
          (λ '(cx, cz), with_chunk world cx cz (λ chunk out, Ok (g chunk out)))
          (g chunk s)
    | Raise ChunkLoadError =>
        for_each locs
          (λ '(cx, cz), with_chunk world cx cz (λ chunk out, Ok (g chunk out)))
          s
    | Raise e => Raise e
    end.
Proof.
  cbn [for_each]. unfold with_chunk.
  destruct (get_chunk world cx cz) as [chunk|[]]; reflexivity.
Qed.

Lemma for_each_chunks {S} (world : World) (locs : list (Z * Z))
    (step : S → Position * BlockEntity → S) (s : S) :
  let run :=
    for_each locs
      (λ '(cx, cz), with_chunk world cx cz (λ chunk out,
         Ok (foldl step out (getattr (block_entities chunk) [])))) s in
  (Forall (λ c, ∀ e, get_chunk world c.1 c.2 = Raise e → e = ChunkLoadError)
     locs →
   run = Ok (foldl step s (loaded_block_entities world locs))) ∧
  (∀ r, run = Ok r →
     Forall (λ c, ∀ e, get_chunk world c.1 c.2 = Raise e → e = ChunkLoadError)
       locs).
Proof.
  cbv zeta. revert s. induction locs as [|[cx cz] locs IH]; intros s.
  - split; [done|]. intros. constructor.
  - rewrite (for_each_chunk_step world cx cz locs
               (λ chunk out, foldl step out (getattr (block_entities chunk) []))).
    rewrite loaded_block_entities_cons, foldl_app, !Forall_cons.
    cbn [fst snd].
    destruct (get_chunk world cx cz) as [chunk|e] eqn:Hc.
    + destruct (IH (foldl step s (getattr (block_entities chunk) [])))
        as [IH1 IH2].
      split.
      * intros [_ Hall]. by apply IH1.
      * intros r Hr. constructor; [|by eapply IH2].
        cbn [fst snd]. by rewrite Hc.
    + destruct e.
      * destruct (IH s) as [IH1 IH2]. split.
        -- intros [_ Hall]. by apply IH1.
        -- intros r Hr. constructor; [|by eapply IH2].
           cbn [fst snd]. rewrite Hc. by intros e [= <-].
      * split; [|done]. intros [Hhd _]. by specialize (Hhd _ eq_refl).
      * split; [|done]. intros [Hhd _]. by specialize (Hhd _ eq_refl).
Qed.

Lemma visit_all_found `{Runtime} world boxes items out :
  Forall (λ f : Found,
     in_any_box boxes f.1.1.1.1 f.1.1.1.2 f.1.1.2 = true ∧
     _is_structure_block world f.1.1.1.1 f.1.1.1.2 f.1.1.2 = true ∧
     f.2 = _parse_structure_block f.1.2) out →
  Forall (λ f : Found,
     in_any_box boxes f.1.1.1.1 f.1.1.1.2 f.1.1.2 = true ∧
     _is_structure_block world f.1.1.1.1 f.1.1.1.2 f.1.1.2 = true ∧
     f.2 = _parse_structure_block f.1.2)
    (foldl (λ out item, visit_block_entity world boxes item out) out items).
Proof.
  revert out. induction items as [|[[[x y] z] be] items IH]; intros out Hout;
    [done|].
  simpl. apply IH. unfold visit_block_entity.
  destruct (in_any_box boxes x y z) eqn:Hin; simpl; [|done].
  destruct (_is_structure_block world x y z) eqn:Hsb; simpl; [|done].
  destruct (nbt be) as [t|]; [|done].
  apply Forall_app. split; [done|]. by repeat constructor.
Qed.

(** Marker discovery ends normally exactly when no chunk of the selection
    raises anything but a load error. It then returns what the block
    entities of the chunks that load contribute, in the order of iteration:
    a chunk that fails to load is passed over. Every entry found lies in a
    box of the selection, on a block with the marker's base name, and
    carries the parse of its tag; the resolved records are the candidates
    that resolve. *)
Theorem marker_discovery_skips_unloaded `{Runtime} (world : World)
    (selection : list SelectionBox) :
  let loaded := loaded_block_entities world (chunk_locations selection) in
  ((∃ found, _iter_structure_blocks world selection = Ok found) ↔
   Forall (λ c, ∀ e, get_chunk world c.1 c.2 = Raise e → e = ChunkLoadError)
     (chunk_locations selection)) ∧
  (∀ found,
     _iter_structure_blocks world selection = Ok found →
     found = foldl (λ out item, visit_block_entity world selection item out)
               [] loaded ∧
     resolved found = omap (candidate_record world selection) loaded ∧
     Forall (λ f : Found,
        in_any_box selection f.1.1.1.1 f.1.1.1.2 f.1.1.2 = true ∧
        _is_structure_block world f.1.1.1.1 f.1.1.1.2 f.1.1.2 = true ∧
        f.2 = _parse_structure_block f.1.2) found).
Proof.
  intros loaded. unfold _iter_structure_blocks.
  destruct (for_each_chunks world (chunk_locations selection)
              (λ out item, visit_block_entity world selection item out) [])
    as [Hok Hall].
  simpl in Hok, Hall. split.
  - split.
    + intros [found Hf]. by eapply Hall.
    + intros Hl. eexists. by apply Hok.
  - intros found Hf. pose proof (Hall _ Hf) as Hl.
    rewrite (Hok Hl) in Hf. injection Hf as <-.
    split_and!; [done| |].
    + by rewrite resolved_visit_all.
    + apply visit_all_found. constructor.
Qed.

Lemma collect_fold_lookup (box : SelectionBox) (items : list (Position * BlockEntity))
    (m : gmap Position BlockEntity) p be :
  foldl (λ out '((x, y, z), be),
           if in_box box x y z then <[(x, y, z) := be]> out else out) m items
    !! p = Some be →
  m !! p = Some be ∨ (in_box box p.1.1 p.1.2 p.2 = true ∧ (p, be) ∈ items).
Proof.
  revert m. induction items as [|[[[x y] z] be'] items IH]; intros m; simpl.
  - auto.
  - intros [Hm|[Hin Hel]]%IH.
    + destruct (in_box box x y z) eqn:Hb; [|auto].
      destruct (decide ((x, y, z) = p)) as [<-|Hne].
      * rewrite lookup_insert_eq in Hm. simplify_eq. right.
        split; [done|left].
      * rewrite lookup_insert_ne in Hm by done. auto.
    + right. split; [done|by right].
Qed.

Lemma collect_fold_is_Some (box : SelectionBox) (items : list (Position * BlockEntity))
    (m : gmap Position BlockEntity) p :
  is_Some (m !! p) ∨
    (in_box box p.1.1 p.1.2 p.2 = true ∧ ∃ be, (p, be) ∈ items) →
  is_Some (foldl (λ out '((x, y, z), be),
                    if in_box box x y z then <[(x, y, z) := be]> out else out)
             m items !! p).
Proof.
  revert m. induction items as [|[[[x y] z] be'] items IH]; intros m; simpl.
  - intros [?|[_ [be Hbe]]]; [done|]. by apply elem_of_nil in Hbe.
  - intros Hcase. apply IH.
    destruct Hcase as [Hm|[Hin [be Hbe]]].
    + left. destruct (in_box box x y z); [|done].
      destruct (decide ((x, y, z) = p)) as [<-|Hne].
      * rewrite lookup_insert_eq. eauto.
      * by rewrite lookup_insert_ne.
    + apply elem_of_cons in Hbe as [Heq|Hbe].
      * simplify_eq. left. simpl in Hin. rewrite Hin, lookup_insert_eq. eauto.
      * right. eauto.
Qed.

(** The block entities collected for a box are keyed by positions inside
    the box and come from chunks that loaded; and every position of the box
    at which a loaded chunk has a block entity has one in the map. *)
Theorem collected_block_entities_in_box `{Runtime} (world : World)
    (box : SelectionBox) (be_map : gmap Position BlockEntity) :
  _collect_block_entities_in_box world box = Ok be_map →
  let loaded := loaded_block_entities world (chunk_locations [box]) in
  (∀ p be, be_map !! p = Some be →
     in_box box p.1.1 p.1.2 p.2 = true ∧ (p, be) ∈ loaded) ∧
  (∀ p be, (p, be) ∈ loaded → in_box box p.1.1 p.1.2 p.2 = true →
     is_Some (be_map !! p)).
Proof.
  intros Hrun loaded. unfold _collect_block_entities_in_box in Hrun.
  destruct (for_each_chunks world (chunk_locations [box])
              (λ (out : gmap Position BlockEntity) '((x, y, z), be),
                 if in_box box x y z then <[(x, y, z) := be]> out else out) ∅)
    as [Hok Hall].
  simpl in Hok, Hall. pose proof (Hall _ Hrun) as Hl.
  pose proof (eq_trans (eq_sym Hrun) (Hok Hl)) as Heq.
  injection Heq as ->. fold loaded. split.
  - intros p be [Hm|?]%collect_fold_lookup; [|done].
    by rewrite lookup_empty in Hm.
  - intros p be Hel Hin. apply collect_fold_is_Some. right. eauto.
Qed.

(** ** Trimming and case *)

Lemma list_of_rev_app s1 s2 :
  list_ascii_of_string (String.rev_app s1 s2)
    = (reverse (list_ascii_of_string s1) ++ list_ascii_of_string s2)%list.
Proof.
  revert s2. induction s1 as [|c s1 IH]; intros s2; simpl; [done|].
  rewrite IH, reverse_cons. simpl. by rewrite <-app_assoc.
Qed.

Lemma list_of_rev s :
  list_ascii_of_string (String.rev s) = reverse (list_ascii_of_string s).
Proof. unfold String.rev. by rewrite list_of_rev_app, app_nil_r. Qed.

Lemma list_ascii_inj s1 s2 :
  list_ascii_of_string s1 = list_ascii_of_string s2 → s1 = s2.
Proof.
  intros Heq. rewrite <-(string_of_list_ascii_of_string s1),
    <-(string_of_list_ascii_of_string s2). by rewrite Heq.
Qed.

Lemma string_rev_involutive s : String.rev (String.rev s) = s.
Proof. apply list_ascii_inj. by rewrite !list_of_rev, reverse_involutive. Qed.

Lemma lstrip_spec s :
  ∃ pre,
    list_ascii_of_string s = (pre ++ list_ascii_of_string (lstrip s))%list ∧
    Forall (λ c, py_isspace c = true) pre ∧
    ∀ c, head (list_ascii_of_string (lstrip s)) = Some c → py_isspace c = false.
Proof.
  induction s as [|c s (pre & Hs & Hpre & Hhd)]; simpl.
  - exists []. by split_and!.
  - destruct (py_isspace c) eqn:Hc.
    + exists (c :: pre). simpl. rewrite Hs. split_and!; [done| |done].
      by constructor.
    + exists []. split_and!; [done|constructor|]. simpl. by intros ? [= <-].
Qed.

Lemma lstrip_id s :
  (∀ c, head (list_ascii_of_string s) = Some c → py_isspace c = false) →
  lstrip s = s.
Proof.
  destruct s as [|c s]; simpl; [done|]. intros Hhd.
  by rewrite (Hhd c eq_refl).
Qed.

(** [strip] takes away a run of white space at each end, and what is left
    neither starts nor ends with white space. *)
Lemma strip_spec s :
  ∃ pre post,
    list_ascii_of_string s
      = (pre ++ list_ascii_of_string (strip s) ++ post)%list ∧
    Forall (λ c, py_isspace c = true) pre ∧
    Forall (λ c, py_isspace c = true) post ∧
    (∀ c, head (list_ascii_of_string (strip s)) = Some c → py_isspace c = false) ∧
    (∀ c, last (list_ascii_of_string (strip s)) = Some c → py_isspace c = false).
Proof.
  unfold strip.
  destruct (lstrip_spec s) as (pre & Hs & Hpre & Hhd).
  destruct (lstrip_spec (String.rev (lstrip s))) as (pre2 & Hr & Hpre2 & Hhd2).
  rewrite list_of_rev in Hr.
  assert (list_ascii_of_string (lstrip s)
          = (reverse (list_ascii_of_string (lstrip (String.rev (lstrip s))))
             ++ reverse pre2)%list) as Ha.
  { rewrite <-reverse_app, <-Hr. by rewrite reverse_involutive. }
  exists pre, (reverse pre2). rewrite list_of_rev. split_and!.
  - by rewrite Hs, Ha.
  - done.
  - by apply Forall_reverse.
  - intros c Hc. apply Hhd. rewrite Ha.
    destruct (reverse (list_ascii_of_string (lstrip (String.rev (lstrip s)))));
      [done|]. done.
  - intros c Hc. apply Hhd2. by rewrite last_reverse in Hc.
Qed.

Lemma strip_fixed s :
  (∀ c, head (list_ascii_of_string s) = Some c → py_isspace c = false) →
  (∀ c, last (list_ascii_of_string s) = Some c → py_isspace c = false) →
  strip s = s.
Proof.
  intros Hhd Hlast. unfold strip. rewrite (lstrip_id s Hhd).
  rewrite (lstrip_id (String.rev s)).
  - apply string_rev_involutive.
  - intros c. rewrite list_of_rev, head_reverse. apply Hlast.
Qed.

Lemma strip_idemp s : strip (strip s) = strip s.
Proof.
  destruct (strip_spec s) as (_ & _ & _ & _ & _ & Hhd & Hlast).
  by apply strip_fixed.
Qed.

Lemma first_str_loop_trimmed key_substrings ys v :
  first_str_loop key_substrings ys = Some v →
  v ≠ "" ∧ ∃ path k val,
    (path, k, TStr val) ∈ ys ∧ key_matches key_substrings k = true ∧
    v = strip val.
Proof.
  induction ys as [|[[path k] t] ys IH]; simpl; [done|].
  assert (first_str_loop key_substrings ys = Some v →
          v ≠ "" ∧ ∃ path0 k0 val, (path0, k0, TStr val) ∈ (path, k, t) :: ys ∧
            key_matches key_substrings k0 = true ∧ v = strip val) as IH'.
  { intros (Hv & p0 & k0 & val & Hin & Hm & ->)%IH. split; [done|].
    exists p0, k0, val. split_and!; [by right|done..]. }
  destruct (key_matches key_substrings k) eqn:Hk; [|done].
  destruct t; try done.
  case_decide as Hs; [done|]. intros [= <-]. split; [done|].
  eexists path, k, _. split_and!; [left|done..].
Qed.

Lemma py_isspace_white_space c :
  py_isspace c = true ↔ N_of_ascii c ∈ white_space.
Proof.
  unfold py_isspace, white_space. generalize (N_of_ascii c) as n. intros n.
  rewrite !orb_true_iff, !andb_true_iff, !N.leb_le, !N.eqb_eq.
  rewrite !elem_of_cons, elem_of_nil. lia.
Qed.

Lemma py_isspace_not_white_space c :
  py_isspace c = false → N_of_ascii c ∉ white_space.
Proof. rewrite <-py_isspace_white_space. by intros ->. Qed.

(** A string that the locator finds is not empty and is trimmed: trimming
    it again changes nothing, and it neither starts nor ends with white
    space. It is what is left of the value of a yielded string node whose
    key matches, once the white space at both ends of the value is taken
    away. So the name of every marker record is a non-empty trimmed
    string. *)
Theorem found_string_is_trimmed `{Runtime} (t : tag)
    (key_substrings : list string) (v : string) :
  _find_first_str t key_substrings = Some v →
  v ≠ "" ∧ strip v = v ∧
  (∀ c, head (list_ascii_of_string v) = Some c → N_of_ascii c ∉ white_space) ∧
  (∀ c, last (list_ascii_of_string v) = Some c → N_of_ascii c ∉ white_space) ∧
  (∃ path k val pre post,
     (path, k, TStr val) ∈ _iter_nbt_tree t "" ∧
     key_matches key_substrings k = true ∧
     list_ascii_of_string val
       = (pre ++ list_ascii_of_string v ++ post)%list ∧
     Forall (λ c, N_of_ascii c ∈ white_space) pre ∧
     Forall (λ c, N_of_ascii c ∈ white_space) post) ∧
  (∀ data, _parse_structure_block t = Some data →
     name data ≠ "" ∧ strip (name data) = name data).
Proof.
  unfold _find_first_str.
  intros (Hv & path & k & val & Hin & Hm & ->)%first_str_loop_trimmed.
  destruct (strip_spec val) as (pre & post & Hval & Hpre & Hpost & Hhd & Hlast).
  split_and!; [done|apply strip_idemp| | | |].
  - intros c Hc. by apply py_isspace_not_white_space, Hhd.
  - intros c Hc. by apply py_isspace_not_white_space, Hlast.
  - exists path, k, val, pre, post. split_and!; [done..| |].
    + eapply Forall_impl; [exact Hpre|]. intros c. apply py_isspace_white_space.
    + eapply Forall_impl; [exact Hpost|]. intros c. apply py_isspace_white_space.
  - intros data Hp. unfold _parse_structure_block in Hp.
    destruct (_find_first_str t _) as [nm|] eqn:Hn; [|done].
    unfold _find_first_str in Hn.
    apply first_str_loop_trimmed in Hn as (Hnm & _ & _ & val' & _ & _ & ->).
    repeat (case_match; try done). simplify_eq. simpl.
    split; [done|apply strip_idemp].
Qed.

Lemma ascii_lower_not_upper c : is_upper (ascii_lower c) = false.
Proof. by destruct c as [[] [] [] [] [] [] [] []]. Qed.

Lemma ascii_lower_idemp c : ascii_lower (ascii_lower c) = ascii_lower c.
Proof. by destruct c as [[] [] [] [] [] [] [] []]. Qed.

Lemma lower_no_upper s c :
  c ∈ list_ascii_of_string (lower s) → is_upper c = false.
Proof.
  induction s as [|c0 s IH]; simpl.
  - intros []%elem_of_nil.
  - intros [->|Hin]%elem_of_cons; [|by apply IH].
    apply ascii_lower_not_upper.
Qed.

Lemma lower_idemp s : lower (lower s) = lower s.
Proof.
  induction s as [|c s IH]; simpl; [done|].
  by rewrite IH, ascii_lower_idemp.
Qed.

Lemma prefix_elem_of sub s c :
  String.prefix sub s = true →
  c ∈ list_ascii_of_string sub → c ∈ list_ascii_of_string s.
Proof.
  revert s. induction sub as [|a sub IH]; intros s; simpl.
  - intros _ []%elem_of_nil.
  - destruct s as [|b s]; [done|]. simpl.
    destruct (ascii_dec a b) as [->|]; [|done].
    intros Hp [->|Hin]%elem_of_cons; [left|right; by eapply IH].
Qed.

Lemma contains_elem_of sub s c :
  contains sub s = true →
  c ∈ list_ascii_of_string sub → c ∈ list_ascii_of_string s.
Proof.
  induction s as [|b s IH]; intros Hc Hin.
  - change (contains sub "") with (String.prefix sub "" || false) in Hc.
    rewrite orb_false_r in Hc. by eapply prefix_elem_of.
  - change (contains sub (String b s))
      with (String.prefix sub (String b s) || contains sub s) in Hc.
    apply orb_true_iff in Hc as [Hp|Hc].
    + by eapply prefix_elem_of.
    + simpl. right. by apply IH.
Qed.

(** Keys are compared in lower case, the search strings as they are: the
    case of a key does not matter, and a search string with an upper-case
    letter matches no key, so a search with only such strings finds
    nothing. *)
Theorem key_matching_case `{Runtime} (key_substrings : list string) :
  (∀ k, key_matches key_substrings (lower k) = key_matches key_substrings k) ∧
  (Forall (λ s, has_upper s = true) key_substrings →
   (∀ k, key_matches key_substrings k = false) ∧
   (∀ t, _find_first_str t key_substrings = None ∧
         _find_first_int t key_substrings = None)).
Proof.
  split.
  - intros k. unfold key_matches. by rewrite lower_idemp.
  - intros Hup.
    assert (Hno : ∀ k, key_matches key_substrings k = false).
    { intros k. unfold key_matches.
      apply not_true_iff_false. intros Hex.
      apply existsb_exists in Hex as (s & Hs%list_elem_of_In & Hc).
      rewrite Forall_forall in Hup. specialize (Hup s Hs).
      unfold has_upper in Hup.
      apply existsb_exists in Hup as (c & Hin%list_elem_of_In & Hu).
      pose proof (lower_no_upper k c (contains_elem_of _ _ _ Hc Hin)).
      congruence. }
    split; [done|]. intros t. unfold _find_first_str, _find_first_int.
    split.
    + induction (_iter_nbt_tree t "") as [|[[p k] v] ys IH]; simpl; [done|].
      by rewrite Hno.
    + induction (_iter_nbt_tree t "") as [|[[p k] v] ys IH]; simpl; [done|].
      by rewrite Hno.
Qed.

(** ** The version string *)

Lemma map_chars_compose f g s :
  map_chars g (map_chars f s) = map_chars (λ c, g (f c)) s.
Proof. induction s as [|c s IH]; simpl; [done|]. by rewrite IH. Qed.

Lemma map_chars_ext f g s :
  (∀ c, f c = g c) → map_chars f s = map_chars g s.
Proof. intros Hfg. induction s as [|c s IH]; simpl; [done|]. by rewrite Hfg, IH. Qed.

Lemma str_isdigit_all_digits p :
  all_digits p = true → (str_isdigit p = true ↔ p ≠ "").
Proof. destruct p; simpl; [done|]. intros ->. done. Qed.

Lemma filter_cons_all_digits p ps :
  all_digits p = true →
  filter (λ p, str_isdigit p = true) (p :: ps)
    = ((if decide (p = "") then [] else [p]) ++
       filter (λ p, str_isdigit p = true) ps)%list.
Proof.
  intros Hp. destruct (decide (p = "")) as [->|Hne].
  - by rewrite filter_cons_False.
  - rewrite filter_cons_True; [done|]. by apply str_isdigit_all_digits.
Qed.

(** The parts that pass [isdigit] are the maximal runs of digits. *)
Lemma split_cleaned_digit_runs s :
  ∃ p ps,
    split_on "." (map_chars (λ ch, if is_digit ch then ch else "."%char) s)
      = p :: ps ∧
    all_digits p = true ∧
    (p = "" ↔ starts_with is_digit s = false) ∧
    runs is_digit s
      = ((if decide (p = "") then [] else [p]) ++
         filter (λ p, str_isdigit p = true) ps)%list.
Proof.
  induction s as [|c s (p & ps & Hsplit & Hp & Hstart & Hruns)].
  - exists "", []. by split_and!.
  - simpl. destruct (is_digit c) eqn:Hc.
    + rewrite decide_False by (intros ->; done). rewrite Hsplit.
      exists (String c p), ps. split_and!; [done| |done|].
      { simpl. by rewrite Hc. }
      rewrite decide_False by done.
      destruct (starts_with is_digit s) eqn:Hs.
      * assert (p ≠ "") as Hne by (intros ?%Hstart; done).
        rewrite Hruns, decide_False by done. done.
      * assert (p = "") as -> by (by apply Hstart).
        rewrite Hruns. done.
    + rewrite decide_True by done.
      exists "", (p :: ps). split_and!; [by rewrite Hsplit|done|done|].
      rewrite decide_True by done. simpl.
      by rewrite filter_cons_all_digits, Hruns.
Qed.

Lemma filter_split_cleaned s :
  filter (λ p, str_isdigit p = true)
    (split_on "." (map_chars (λ ch, if is_digit ch then ch else "."%char) s))
  = runs is_digit s.
Proof.
  destruct (split_cleaned_digit_runs s) as (p & ps & -> & Hp & _ & ->).
  by apply filter_cons_all_digits.
Qed.

Lemma digit_runs_skip pre s :
  Forall (λ c, is_digit c = false) pre →
  runs is_digit (string_of_list_ascii pre +:+ s) = runs is_digit s.
Proof.
  induction 1 as [|c pre Hc _ IH]; [done|].
  change (runs is_digit (String c (string_of_list_ascii pre +:+ s)) = runs is_digit s).
  simpl. by rewrite Hc.
Qed.

Lemma starts_with_digit_app s post :
  Forall (λ c, is_digit c = false) post →
  starts_with is_digit (s +:+ string_of_list_ascii post) = starts_with is_digit s.
Proof.
  intros Hpost. destruct s as [|c s]; [|done].
  change ("" +:+ string_of_list_ascii post) with (string_of_list_ascii post).
  destruct Hpost as [|c post Hc _]; [done|]. simpl. done.
Qed.

Lemma digit_runs_drop_end s post :
  Forall (λ c, is_digit c = false) post →
  runs is_digit (s +:+ string_of_list_ascii post) = runs is_digit s.
Proof.
  intros Hpost. induction s as [|c s IH].
  - change ("" +:+ string_of_list_ascii post) with (string_of_list_ascii post).
    rewrite <-(digit_runs_skip post ""); [|done].
    f_equal. induction (string_of_list_ascii post) as [|a r IHr]; [done|].
    change (String a r = String a (r +:+ "")). by rewrite <-IHr.
  - change (String c s +:+ string_of_list_ascii post)
      with (String c (s +:+ string_of_list_ascii post)).
    simpl. by rewrite IH, starts_with_digit_app.
Qed.

Lemma py_isspace_not_digit c : py_isspace c = true → is_digit c = false.
Proof.
  unfold py_isspace, is_digit. generalize (N_of_ascii c) as n. intros n Hs.
  apply not_true_iff_false. intros Hd. revert Hs Hd.
  rewrite !orb_true_iff, !andb_true_iff, !N.leb_le, !N.eqb_eq. lia.
Qed.

Lemma string_of_list_app l1 l2 :
  string_of_list_ascii (l1 ++ l2)
    = string_of_list_ascii l1 +:+ string_of_list_ascii l2.
Proof. induction l1 as [|c l1 IH]; simpl; [done|]. by rewrite IH. Qed.

Lemma digit_runs_strip s : runs is_digit (strip s) = runs is_digit s.
Proof.
  destruct (strip_spec s) as (pre & post & Hs & Hpre & Hpost & _).
  rewrite <-(string_of_list_ascii_of_string s) at 2.
  rewrite Hs, !string_of_list_app, string_of_list_ascii_of_string.
  rewrite digit_runs_skip, digit_runs_drop_end; [done| |].
  - eapply Forall_impl; [exact Hpost|]. apply py_isspace_not_digit.
  - eapply Forall_impl; [exact Hpre|]. apply py_isspace_not_digit.
Qed.

Lemma is_digit_code_eq c : is_digit_code c = is_digit c.
Proof. by destruct c as [[] [] [] [] [] [] [] []]. Qed.

Lemma runs_ext (f g : ascii → bool) s :
  (∀ c, f c = g c) → runs f s = runs g s.
Proof.
  intros Hfg. induction s as [|c s IH]; simpl; [done|].
  rewrite Hfg, IH. by destruct s; simpl; rewrite ?Hfg.
Qed.

(** The version is read off the first three maximal runs of digit
    characters of the string, whatever stands between and around them.
    With fewer than three runs there is no version; with three or more,
    the version is what [int] makes of the first three, in order, and a run
    that [int] refuses, such as one with a superscript digit, ends the call
    with its [ValueError]. *)
Theorem parse_bedrock_version_digit_runs `{Runtime} (s : string) :
  _parse_bedrock_version s =
    match digit_runs s with
    | p0 :: p1 :: p2 :: _ =>
        major ← int_of_str p0;
        minor ← int_of_str p1;
        patch ← int_of_str p2;
        Ok (Some (major, minor, patch))
    | _ => Ok None
    end ∧
  (_parse_bedrock_version s = Ok None ↔ (length (digit_runs s) < 3)%nat) ∧
  (∀ major minor patch,
     _parse_bedrock_version s = Ok (Some (major, minor, patch)) ↔
     ∃ p0 p1 p2 rest,
       digit_runs s = p0 :: p1 :: p2 :: rest ∧
       py_int_of_str p0 = Some major ∧ py_int_of_str p1 = Some minor ∧
       py_int_of_str p2 = Some patch) ∧
  (∀ e,
     _parse_bedrock_version s = Raise e ↔
     e = OtherError "ValueError" ∧
     ∃ p, p ∈ take 3 (digit_runs s) ∧ py_int_of_str p = None ∧
          (3 ≤ length (digit_runs s))%nat).
Proof.
  assert (Heq : _parse_bedrock_version s =
    match digit_runs s with
    | p0 :: p1 :: p2 :: _ =>
        major ← int_of_str p0;
        minor ← int_of_str p1;
        patch ← int_of_str p2;
        Ok (Some (major, minor, patch))
    | _ => Ok None
    end).
  { unfold _parse_bedrock_version, digit_runs.
    rewrite (runs_ext _ _ s is_digit_code_eq).
    case_decide as Hs; [by subst|].
    rewrite map_chars_compose.
    rewrite (map_chars_ext _ (λ ch, if is_digit ch then ch else "."%char)).
    - by rewrite filter_split_cleaned, digit_runs_strip.
    - intros c. case_decide as Hc; [by subst|done]. }
  rewrite Heq. split; [done|].
  destruct (digit_runs s) as [|p0 [|p1 [|p2 rest]]].
  1-3: split_and!; [split; [simpl; lia|done]
                   |intros ???; split; [done|by intros (?&?&?&?&?&_)]
                   |intros e; split; [done|intros (_&_&_&_&?); simpl in *; lia]].
  unfold int_of_str.
  destruct (py_int_of_str p0) as [n0|] eqn:E0; simpl;
    [destruct (py_int_of_str p1) as [n1|] eqn:E1; simpl;
       [destruct (py_int_of_str p2) as [n2|] eqn:E2; simpl|]|].
  all: split_and!.
  all: try (split; [done|simpl; lia]).
  all: try (intros major minor patch; split;
            [intros [= <- <- <-]; by eexists _, _, _, _
            |intros (?&?&?&?&[= <- <- <- <-]&?&?&?); by simplify_eq]).
  all: try (intros major minor patch; split;
            [done|intros (?&?&?&?&[= <- <- <- <-]&?&?&?); by simplify_eq]).
  all: intros e; split.
  all: try (intros [= <-]; split; [done|]).
  all: try done.
  - intros (_ & p & Hp & Hnone & _). simpl in Hp.
    rewrite !elem_of_cons, elem_of_nil in Hp. naive_solver.
  - exists p2. simpl. split_and!; [set_solver|done|lia].
  - intros [-> _]. done.
  - exists p1. simpl. split_and!; [set_solver|done|lia].
  - intros [-> _]. done.
  - exists p0. simpl. split_and!; [set_solver|done|lia].
  - intros [-> _]. done.
Qed.

Example parse_bedrock_version_examples :
  _parse_bedrock_version (H := sample_runtime) "1.21.132"
    = Ok (Some (1, 21, 132)) ∧
  _parse_bedrock_version (H := sample_runtime) "1,21,132"
    = Ok (Some (1, 21, 132)) ∧
  _parse_bedrock_version (H := sample_runtime) " 1 21 132 "
    = Ok (Some (1, 21, 132)) ∧
  _parse_bedrock_version (H := sample_runtime) "v1.21" = Ok None ∧
  _parse_bedrock_version (H := sample_runtime) "" = Ok None ∧
  digit_runs superscript_version = ["1"; "2"; String (ascii_of_N 178) ""] ∧
  _parse_bedrock_version (H := sample_runtime) superscript_version
    = Raise (OtherError "ValueError").
Proof. vm_compute. done. Qed.

(** ** Free output paths *)

Lemma unique_path_loop_Some `{PathLib} path_exists directory filename fuel i0 p :
  (0 < i0)%nat →
  unique_path_loop path_exists directory (path_splitext filename).1
    (path_splitext filename).2 fuel i0 = Some p ↔
  ∃ i, (i0 ≤ i < i0 + fuel)%nat ∧
       p = candidate_path directory filename i ∧
       path_exists p = false ∧
       ∀ j, (i0 ≤ j < i)%nat →
            path_exists (candidate_path directory filename j) = true.
Proof.
  revert i0. induction fuel as [|fuel IH]; intros i0 Hi0; simpl.
  - split; [done|]. intros (i & ? & _). lia.
  - assert (candidate_path directory filename i0
            = path_join directory
                ((path_splitext filename).1 +:+ "_" +:+ str_of_nat i0 +:+
                 (path_splitext filename).2)) as Hcand
      by (by destruct i0; [lia|]).
    rewrite <-Hcand.
    destruct (path_exists (candidate_path directory filename i0)) eqn:Hex;
      simpl.
    + rewrite IH by lia. split.
      * intros (i & Hi & -> & Hfree & Hbefore). exists i.
        (split; [lia|]); (split; [done|]); (split; [done|]).
        intros j Hj. destruct (decide (j = i0)) as [->|]; [done|].
        apply Hbefore. lia.
      * intros (i & Hi & -> & Hfree & Hbefore).
        assert (i ≠ i0) by (intros ->; congruence).
        exists i. (split; [lia|]); (split; [done|]); (split; [done|]).
        intros j Hj. apply Hbefore. lia.
    + split.
      * intros [= <-]. exists i0. (split; [lia|]); (split; [done|]); (split; [done|]). intros j Hj. lia.
      * intros (i & Hi & -> & Hfree & Hbefore).
        destruct (decide (i = i0)) as [->|]; [done|].
        rewrite Hbefore in Hex by lia. done.
Qed.

(** [_unique_path] returns the first free name among [directory/filename],
    [root_1.ext], [root_2.ext], ...: the path returned does not exist, and
    every name tried before it does. A free name within the first [fuel]
    suffixes is always found. *)
Theorem unique_path_first_free `{PathLib} (path_exists : string → bool)
    (directory filename : string) (fuel : nat) (p : string) :
  unique_path path_exists directory filename fuel = Some p ↔
  ∃ i, (i ≤ fuel)%nat ∧
       p = candidate_path directory filename i ∧
       path_exists p = false ∧
       ∀ j, (j < i)%nat →
            path_exists (candidate_path directory filename j) = true.
Proof.
  unfold unique_path.
  destruct (path_exists (path_join directory filename)) eqn:Hex; simpl.
  - destruct (path_splitext filename) as [root ext] eqn:Hsplit.
    pose proof (unique_path_loop_Some path_exists directory filename fuel 1 p)
      as Hloop.
    rewrite Hsplit in Hloop. simpl in Hloop. rewrite Hloop by lia. split.
    + intros (i & Hi & -> & Hfree & Hbefore). exists i.
      (split; [lia|]); (split; [done|]); (split; [done|]).
      intros j Hj. destruct j as [|j]; [done|]. apply Hbefore. lia.
    + intros (i & Hi & -> & Hfree & Hbefore).
      destruct i as [|i]; [simpl in Hfree; congruence|].
      exists (S i). (split; [lia|]); (split; [done|]); (split; [done|]).
      intros j Hj. apply Hbefore. lia.
  - split.
    + intros [= <-]. exists 0%nat. (split; [lia|]); (split; [done|]); (split; [done|]). intros j Hj. lia.
    + intros (i & Hi & -> & Hfree & Hbefore).
      destruct i as [|i]; [done|].
      specialize (Hbefore 0%nat ltac:(lia)). simpl in Hbefore. congruence.
Qed.

(** Scenario E: when [out/house.nbt] exists and [out/house_1.nbt] does
    not, the second export goes to [out/house_1.nbt]. *)
Example unique_path_scenario_e :
  let taken p := bool_decide (p = "out/house.nbt") in
  unique_path (H := sample_pathlib) (λ _, false) "out" "house.nbt" 5
    = Some "out/house.nbt" ∧
  unique_path (H := sample_pathlib) taken "out" "house.nbt" 5
    = Some "out/house_1.nbt".
Proof. vm_compute. done. Qed.

(** ** The diagnostic output *)

Lemma debug_hits_loop_cons hits path k v ys :
  debug_hits_loop hits ((path, k, v) :: ys) =
    if key_matches ["name"; "size"; "offset"; "pos"] k then
      PathValue path v ::
      (if decide (120 < S hits)%nat then [Truncated]
       else debug_hits_loop (S hits) ys)
    else debug_hits_loop hits ys.
Proof. done. Qed.

Lemma debug_hits_loop_count hits ys :
  (hits ≤ 120)%nat →
  let matches :=
    length (filter (λ y : string * string * tag,
                      key_matches ["name"; "size"; "offset"; "pos"] y.1.2 = true)
              ys) in
  length (filter (λ l, is_path_value l = true) (debug_hits_loop hits ys))
    = (matches `min` (121 - hits))%nat ∧
  (Truncated ∈ debug_hits_loop hits ys ↔ (121 - hits ≤ matches)%nat).
Proof.
  cbv zeta. revert hits.
  induction ys as [|[[path k] v] ys IH]; intros hits Hhits.
  - split; [done|]. split; [intros []%elem_of_nil|simpl; lia].
  - rewrite debug_hits_loop_cons.
    destruct (key_matches ["name"; "size"; "offset"; "pos"] k) eqn:Hk.
    + rewrite (filter_cons_True _ _ ys) by done.
      rewrite (filter_cons_True (λ l, is_path_value l = true)) by done.
      cbn [length]. case_decide as Hcap.
      * assert (hits = 120%nat) as -> by lia. split.
        -- rewrite filter_cons_False by (by simpl). simpl. lia.
        -- split; [simpl; lia|]. intros _. right. left.
      * destruct (IH (S hits)) as [IH1 IH2]; [lia|].
        rewrite IH1. split; [lia|].
        rewrite elem_of_cons, IH2. split.
        -- intros [?|?]; [done|lia].
        -- intros ?. right. lia.
    + rewrite (filter_cons_False _ _ ys) by (cbn [fst snd]; by rewrite Hk).
      by apply IH.
Qed.

(** The diagnostic listing shows the first 121 nodes whose key contains
    one of "name", "size", "offset", "pos", and no more; the truncation
    line is printed exactly when there are at least 121 such nodes. *)
Theorem debug_output_capped (t : tag) :
  let matches :=
    length (filter (λ y : string * string * tag,
                      key_matches ["name"; "size"; "offset"; "pos"] y.1.2 = true)
              (_iter_nbt_tree t "")) in
  let lines := _debug_print_structure_block t in
  length (filter (λ l, is_path_value l = true) lines) = (matches `min` 121)%nat ∧
  (Truncated ∈ lines ↔ (121 ≤ matches)%nat) ∧
  (length lines ≤ 123)%nat.
Proof.
  intros matches lines.
  destruct (debug_hits_loop_count 0 (_iter_nbt_tree t "")) as [Hcount Htrunc];
    [lia|].
  fold matches in Hcount, Htrunc.
  change (121 - 0)%nat with 121%nat in Hcount, Htrunc.
  unfold lines, _debug_print_structure_block. split_and!.
  - rewrite filter_cons_False by (by destruct t). done.
  - rewrite elem_of_cons, Htrunc. split; [|auto].
    intros [Heq|?]; [|done]. by destruct t.
  - cbn [length].
    enough (∀ hits ys, length (debug_hits_loop hits ys)
                       ≤ length (filter (λ l, is_path_value l = true)
                                   (debug_hits_loop hits ys)) + 1)%nat as Hlen.
    { specialize (Hlen 0%nat (_iter_nbt_tree t "")). lia. }
    clear. intros hits ys. revert hits.
    induction ys as [|[[path k] v] ys IH]; intros hits; [simpl; lia|].
    rewrite debug_hits_loop_cons.
    destruct (key_matches ["name"; "size"; "offset"; "pos"] k).
    + rewrite filter_cons_True by done. cbn [length]. case_decide.
      * rewrite filter_cons_False by (by simpl). simpl. lia.
      * specialize (IH (S hits)). lia.
    + apply IH.
Qed.

(** ** Float positions *)

Lemma signed_mul s a b : signed s (a * b) = signed s a * b.
Proof. destruct s; simpl; lia. Qed.

Lemma compare_le_lt a n :
  match (a ?= n)%Z with Eq | Gt => true | Lt => false end = (n <=? a)%Z ∧
  match (a ?= n)%Z with Lt => true | _ => false end = (a <? n)%Z.
Proof.
  destruct (Z.compare_spec a n), (Z.leb_spec n a), (Z.ltb_spec a n);
    split; try done; exfalso; lia.
Qed.

Lemma compare_scaled a n d :
  0 < d →
  match (a ?= n * d)%Z with Eq | Gt => true | Lt => false end = (n <=? a / d)%Z ∧
  match (a ?= n * d)%Z with Lt => true | _ => false end = (a / d <? n)%Z.
Proof.
  intros Hd.
  pose proof (Z.div_mod a d ltac:(lia)) as Hdm.
  pose proof (Z.mod_pos_bound a d Hd) as Hmod.
  destruct (Z.compare_spec a (n * d)), (Z.leb_spec n (a / d)),
    (Z.ltb_spec (a / d) n); split; try done; exfalso; nia.
Qed.

Lemma float_cmp_floor f n i :
  float_floor f = Some i →
  Z_le_float n f = (n <=? i)%Z ∧ float_lt_Z f n = (i <? n)%Z.
Proof.
  unfold Z_le_float, float_lt_Z, float_cmp_Z, float_floor.
  destruct f as [s|s| |s m e]; try done; intros [= <-].
  - apply compare_le_lt.
  - destruct (Z.leb_spec 0 e) as [He|He].
    + rewrite Z.shiftl_mul_pow2 by done. rewrite signed_mul.
      apply compare_le_lt.
    + replace (Z.shiftl (signed s (Z.pos m)) e)
        with (signed s (Z.pos m) / 2 ^ (- e)).
      * apply compare_scaled. apply Z.pow_pos_nonneg; lia.
      * by rewrite Z.shiftl_div_pow2 by lia.
Qed.

(** A float position is inside a box exactly when the voxel that holds it,
    its floor on each axis, is inside the box: the test on floats and the
    test on integers agree. *)
Theorem float_in_box_iff_floor_in_box (box : SelectionBox)
    (ex ey ez : spec_float) (ix iy iz : Z) :
  float_floor ex = Some ix → float_floor ey = Some iy →
  float_floor ez = Some iz →
  float_in_box box ex ey ez = in_box box ix iy iz.
Proof.
  intros Hx Hy Hz. unfold float_in_box, in_box.
  destruct (float_cmp_floor ex (min_x box) ix Hx) as [-> _].
  destruct (float_cmp_floor ex (max_x box) ix Hx) as [_ ->].
  destruct (float_cmp_floor ey (min_y box) iy Hy) as [-> _].
  destruct (float_cmp_floor ey (max_y box) iy Hy) as [_ ->].
  destruct (float_cmp_floor ez (min_z box) iz Hz) as [-> _].
  destruct (float_cmp_floor ez (max_z box) iz Hz) as [_ ->].
  done.
Qed.

Lemma trunc_floor f t :
  py_int_of_float f = Some t →
  ∃ i, float_floor f = Some i ∧ (i ≤ t ≤ i + 1)%Z ∧ (0 ≤ i → t = i)%Z.
Proof.
  destruct f as [s|s| |s m e]; try done; simpl; intros [= <-].
  - exists 0. split; [done|lia].
  - eexists. split; [done|]. destruct s; simpl; [|lia].
    destruct (Z.leb_spec 0 e) as [He|He].
    + rewrite !Z.shiftl_mul_pow2 by done. lia.
    + rewrite !Z.shiftl_div_pow2 by lia.
      assert (0 < 2 ^ (- e)) as Hd by (apply Z.pow_pos_nonneg; lia).
      generalize dependent (2 ^ (- e)). intros d Hd.
      pose proof (Z.div_mod (Z.pos m) d ltac:(lia)) as Hdm.
      pose proof (Z.mod_pos_bound (Z.pos m) d Hd) as Hmod.
      pose proof (Z.div_mod (Z.neg m) d ltac:(lia)) as Hdm'.
      pose proof (Z.mod_pos_bound (Z.neg m) d Hd) as Hmod'.
      nia.
Qed.

Lemma between_block_coordinate lo hi f t :
  Z_le_float lo f = true → float_lt_Z f hi = true →
  py_int_of_float f = Some t →
  block_coordinate_range lo hi (t - lo).
Proof.
  intros Hle Hlt (i & Hi & Hrange & Hpos)%trunc_floor.
  destruct (float_cmp_floor f lo i Hi) as [Hle' _].
  destruct (float_cmp_floor f hi i Hi) as [_ Hlt'].
  rewrite Hle' in Hle. rewrite Hlt' in Hlt.
  apply Z.leb_le in Hle. apply Z.ltb_lt in Hlt.
  unfold block_coordinate_range. split; [lia|].
  intros Hlo. rewrite Hpos by lia. lia.
Qed.

Lemma visit_entity_range `{Runtime} box ent out out' :
  Forall (λ e,
      block_coordinate_range (min_x box) (max_x box) (blockPos e).1.1 ∧
      block_coordinate_range (min_y box) (max_y box) (blockPos e).1.2 ∧
      block_coordinate_range (min_z box) (max_z box) (blockPos e).2) out →
  visit_entity box ent out = Ok out' →
  Forall (λ e,
      block_coordinate_range (min_x box) (max_x box) (blockPos e).1.1 ∧
      block_coordinate_range (min_y box) (max_y box) (blockPos e).1.2 ∧
      block_coordinate_range (min_z box) (max_z box) (blockPos e).2) out'.
Proof.
  intros Hout. unfold visit_entity.
  destruct (entity_nbt ent) as [ent_nbt|]; [|by intros [= <-]].
  destruct (entity_position ent_nbt) as [[[ex ey] ez]|]; [|by intros [= <-]].
  destruct (float_in_box box ex ey ez) eqn:Hin; simpl; [|by intros [= <-]].
  unfold float_in_box in Hin. rewrite !andb_true_iff in Hin.
  destruct Hin as [[[[[Hx Hx'] Hy] Hy'] Hz] Hz'].
  destruct (float_sub_Z ex (min_x box)); simpl; [|done].
  destruct (float_sub_Z ey (min_y box)); simpl; [|done].
  destruct (float_sub_Z ez (min_z box)); simpl; [|done].
  unfold int_of_float.
  destruct (py_int_of_float ex) as [tx|] eqn:Htx; [|by destruct ex].
  destruct (py_int_of_float ey) as [ty|] eqn:Hty; [|by destruct ey].
  destruct (py_int_of_float ez) as [tz|] eqn:Htz; [|by destruct ez].
  simpl. intros [= <-]. apply Forall_app. split; [done|].
  constructor; [|constructor]. simpl.
  split_and!; by eapply between_block_coordinate.
Qed.

(** Every entity entry has a block position between 0 and the size of the
    box on each axis, the size included; when the box does not reach below
    0 on an axis, the coordinate there is below the size. *)
Theorem entity_block_positions_bounded `{Runtime} (world : World)
    (box : SelectionBox) (entities_list : list EntityEntry) :
  collect_entities world box = Ok entities_list →
  Forall (λ e,
      block_coordinate_range (min_x box) (max_x box) (blockPos e).1.1 ∧
      block_coordinate_range (min_y box) (max_y box) (blockPos e).1.2 ∧
      block_coordinate_range (min_z box) (max_z box) (blockPos e).2)
    entities_list.
Proof.
  unfold collect_entities. apply for_each_inv; [constructor|].
  intros [cx cz] l1 l2 _ Hl1. unfold with_chunk.
  destruct (get_chunk world cx cz) as [chunk|[]]; try done;
    [|by intros [= <-]].
  apply for_each_inv; [done|].
  intros ent l3 l4 _ Hl3. by apply visit_entity_range.
Qed.

(** ** Attached data *)

Lemma compound_get_filter items k :
  compound_get (filter (λ kv : string * tag, kv.1 ∉ ["x"; "y"; "z"]) items) k
    = if decide (k ∈ ["x"; "y"; "z"]) then None else compound_get items k.
Proof.
  destruct (decide (k ∈ ["x"; "y"; "z"])) as [Hk|Hk].
  - induction items as [|[k' v] items IH]; [done|].
    destruct (decide (k' ∈ ["x"; "y"; "z"])) as [Hk'|Hk'].
    + rewrite filter_cons_False; [done|]. simpl. by intros ?.
    + rewrite filter_cons_True by done. cbn [compound_get].
      rewrite decide_False; [done|]. congruence.
  - induction items as [|[k' v] items IH]; [done|].
    destruct (decide (k' ∈ ["x"; "y"; "z"])) as [Hk'|Hk'].
    + rewrite filter_cons_False by (simpl; by intros ?).
      cbn [compound_get]. rewrite decide_False; [done|]. congruence.
    + rewrite filter_cons_True by done. cbn [compound_get].
      by rewrite IH.
Qed.

(** The data attached to a block entry. Where the copy of the block
    entity's tag and the deletions go through, the attached data has lost
    its top-level ["x"], ["y"] and ["z"] and kept every other key with its
    value; where they do not, the attached data is the tag of the block
    entity as it is, coordinates included. When they go through on every
    tag, no block entry of a document carries such a key. *)
Theorem attached_data_without_coordinates `{Runtime} (items : list (string * tag)) :
  (copy_and_delete_work (TCompound items) = true →
   ∃ items',
     strip_xyz (TCompound items) = TCompound items' ∧
     items' `sublist_of` items ∧
     ∀ k, compound_get items' k
          = if decide (k ∈ ["x"; "y"; "z"]) then None else compound_get items k) ∧
  (copy_and_delete_work (TCompound items) = false →
   strip_xyz (TCompound items) = TCompound items) ∧
  (∀ world box include_entities remove_blocks doc,
     (∀ t, copy_and_delete_work t = true) →
     build_structure_document world box include_entities remove_blocks = Ok doc →
     Forall (λ e, ∀ attached k,
         extra e = Some (TCompound attached) → k ∈ ["x"; "y"; "z"] →
         compound_get attached k = None)
       (doc_blocks doc)).
Proof.
  split_and!.
  - intros Hw. eexists. unfold strip_xyz. rewrite Hw.
    split; [done|]. split; [apply sublist_filter|].
    apply compound_get_filter.
  - intros Hw. unfold strip_xyz. by rewrite Hw.
  - intros world box inc rb doc Hw
      (kept & bs & be_map & _ & _ & _ & _ & ->)%build_structure_document_repr.
    apply Forall_forall.
    intros e (p & i & _ & _ & ->)%elem_of_zip_with_block_entry attached k.
    destruct p as [[x y] z]. cbn [block_entry extra].
    destruct (be_map !! _) as [be|]; [|done]. cbn.
    destruct (nbt be) as [[| | | |items0]|]; try done. cbn.
    rewrite Hw.
    intros [= <-] Hk. rewrite compound_get_filter. by rewrite decide_True.
Qed.

(** ** Discovery and export together *)

(** A run of the operation that ends without an exception has printed one
    line and yielded one progress value, in order, for each block entity of
    a loaded chunk that resolves to a marker record. Before these lines
    stands the line that announces the export; when nothing resolves, the
    run has printed its two lines instead and yielded nothing. *)
Theorem one_yield_per_resolved_marker `{Runtime} `{HostIO Host}
    (world : World) (selection : list SelectionBox) (options : Options)
    (h : Host) (run : Run Host) :
  export_structures_from_structure_blocks world selection options h
    = (run, None) →
  let records :=
    omap (candidate_record world selection)
      (loaded_block_entities world (chunk_locations selection)) in
  yielded run = (λ i, progress i (length records)) <$> seq 1 (length records) ∧
  ∃ lines,
    printed run
      = ((if decide (records = []) then [NoneFound; Tip]
          else [Exporting (length records) (out_dir options) (fmt_raw options)])
         ++ lines)%list ∧
    Forall2 (λ ir line,
               line_of (length records) (fmt_raw options) ir.1 ir.2 line)
      (zip (seq 1 (length records)) records) lines.
Proof.
  unfold export_structures_from_structure_blocks.
  destruct (_iter_structure_blocks world selection) as [found|e] eqn:Hf;
    [|done].
  destruct (for_each_chunks world (chunk_locations selection)
              (λ out item, visit_block_entity world selection item out) [])
    as [Hok Hall].
  simpl in Hok, Hall. unfold _iter_structure_blocks in Hf.
  pose proof (Hall _ Hf) as Hl. rewrite (Hok Hl) in Hf. injection Hf as <-.
  rewrite resolved_visit_all. simpl.
  set (records := omap _ _).
  destruct records as [|r records'] eqn:Hrec.
  - intros [= <-]. simpl. split; [done|]. exists []. by split.
  - rewrite <-Hrec.
    intros (n & lines & _ & Hy & Hp & Hlines & ->)%export_loop_spec.
    simpl in Hy, Hp. split; [done|]. exists lines.
    rewrite decide_False by (by rewrite Hrec). done.
Qed.

(** ** Instances *)

Lemma block_entries_within_document_witness :
  build_structure_document (H := sample_runtime) sample_world two_voxel_box
    false false = Ok two_voxel_document ∧
  Forall (λ e,
      (state e < length (doc_palette two_voxel_document))%nat ∧
      0 ≤ (pos e).1.1 < (doc_size two_voxel_document).1.1 ∧
      0 ≤ (pos e).1.2 < (doc_size two_voxel_document).1.2 ∧
      0 ≤ (pos e).2 < (doc_size two_voxel_document).2)
    (doc_blocks two_voxel_document).
Proof.
  assert (Hdoc : build_structure_document (H := sample_runtime) sample_world
                   two_voxel_box false false = Ok two_voxel_document)
    by (vm_compute; reflexivity).
  split; [exact Hdoc|].
  exact (block_entries_within_document (H := sample_runtime) _ _ _ _ _ Hdoc).
Defined.

Lemma palette_distinct_and_used_witness :
  build_structure_document (H := sample_runtime) sample_world two_voxel_box
    false false = Ok two_voxel_document ∧
  NoDup (doc_palette two_voxel_document) ∧
  ∀ i, (i < length (doc_palette two_voxel_document))%nat →
       ∃ e, e ∈ doc_blocks two_voxel_document ∧ state e = i.
Proof.
  assert (Hdoc : build_structure_document (H := sample_runtime) sample_world
                   two_voxel_box false false = Ok two_voxel_document)
    by (vm_compute; reflexivity).
  split; [exact Hdoc|].
  exact (palette_distinct_and_used (H := sample_runtime) _ _ _ _ _ Hdoc).
Defined.

Lemma block_positions_distinct_witness :
  build_structure_document (H := sample_runtime) sample_world two_voxel_box
    false false = Ok two_voxel_document ∧
  NoDup (pos <$> doc_blocks two_voxel_document) ∧
  (length (doc_blocks two_voxel_document) ≤ 2)%nat.
Proof.
  assert (Hdoc : build_structure_document (H := sample_runtime) sample_world
                   two_voxel_box false false = Ok two_voxel_document)
    by (vm_compute; reflexivity).
  split; [exact Hdoc|].
  exact (block_positions_distinct (H := sample_runtime) _ _ _ _ _ Hdoc).
Defined.

Lemma document_size_is_marker_size_witness :
  _parse_structure_block (H := sample_runtime) scenario_a_tag
    = Some scenario_a_data ∧
  marker_box (H := sample_runtime) (10, 64, 10) scenario_a_data
    = Ok scenario_a_box ∧
  build_structure_document (H := sample_runtime) marker_world
    scenario_a_box false true
    = Ok {| doc_size := (3, 2, 3); doc_palette := []; doc_blocks := [];
            doc_entities := [] |} ∧
  (3, 2, 3) = size scenario_a_data.
Proof.
  assert (Hp : _parse_structure_block (H := sample_runtime) scenario_a_tag
                 = Some scenario_a_data) by (vm_compute; reflexivity).
  assert (Hbox : marker_box (H := sample_runtime) (10, 64, 10) scenario_a_data
                 = Ok scenario_a_box) by (vm_compute; reflexivity).
  assert (Hdoc : build_structure_document (H := sample_runtime) marker_world
                   scenario_a_box false true
                 = Ok {| doc_size := (3, 2, 3); doc_palette := [];
                         doc_blocks := []; doc_entities := [] |})
    by (vm_compute; reflexivity).
  split; [exact Hp|]. split; [exact Hbox|]. split; [exact Hdoc|].
  refine (document_size_is_marker_size (H := sample_runtime) marker_world
            scenario_a_tag scenario_a_data (10, 64, 10) false true
            scenario_a_box _ Hp _ _ Hbox Hdoc);
    unfold in_int64_range; simpl; lia.
Defined.

Lemma collected_block_entities_in_box_witness :
  let box := scenario_a_box in
  let be_map : gmap Position BlockEntity :=
    {[ (11, 65, 11) := chest_block_entity ]} in
  _collect_block_entities_in_box (H := sample_runtime) marker_world box
    = Ok be_map ∧
  (∀ p be, be_map !! p = Some be → in_box box p.1.1 p.1.2 p.2 = true) ∧
  (∀ p be,
     (p, be) ∈ loaded_block_entities marker_world
                 (chunk_locations (Runtime := sample_runtime) [box]) →
     in_box box p.1.1 p.1.2 p.2 = true → is_Some (be_map !! p)).
Proof.
  intros box be_map.
  assert (Hrun : _collect_block_entities_in_box (H := sample_runtime)
                   marker_world box = Ok be_map) by (vm_compute; reflexivity).
  split; [exact Hrun|].
  destruct (collected_block_entities_in_box (H := sample_runtime) _ _ _ Hrun)
    as [Hin Hall].
  split; [|exact Hall].
  intros p be Hp. exact (proj1 (Hin p be Hp)).
Defined.

Lemma found_string_is_trimmed_witness :
  _find_first_str scenario_a_tag ["name"] = Some "mystructure:house" ∧
  "mystructure:house" ≠ "" ∧ strip "mystructure:house" = "mystructure:house".
Proof.
  assert (Hf : _find_first_str scenario_a_tag ["name"]
                 = Some "mystructure:house") by (vm_compute; reflexivity).
  split; [exact Hf|].
  destruct (found_string_is_trimmed (H := sample_runtime) _ _ _ Hf)
    as (Hne & Hstrip & _).
  exact (conj Hne Hstrip).
Defined.

Lemma float_in_box_iff_floor_in_box_witness :
  float_floor minus_half = Some (-1) ∧ float_floor half = Some 0 ∧
  float_in_box unit_box_at_minus_one minus_half half half
    = in_box unit_box_at_minus_one (-1) 0 0.
Proof.
  split; [reflexivity|]. split; [reflexivity|].
  exact (float_in_box_iff_floor_in_box unit_box_at_minus_one
           minus_half half half (-1) 0 0 eq_refl eq_refl eq_refl).
Defined.

Lemma entity_block_positions_bounded_witness :
  collect_entities (H := sample_runtime) sample_world unit_box_at_minus_one
    = Ok [sample_entity_entry] ∧
  Forall (λ e,
      block_coordinate_range (-1) 0 (blockPos e).1.1 ∧
      block_coordinate_range 0 1 (blockPos e).1.2 ∧
      block_coordinate_range 0 1 (blockPos e).2)
    [sample_entity_entry].
Proof.
  assert (Hrun : collect_entities (H := sample_runtime) sample_world
                   unit_box_at_minus_one = Ok [sample_entity_entry])
    by (vm_compute; reflexivity).
  split; [exact Hrun|].
  exact (entity_block_positions_bounded (H := sample_runtime) _ _ _ Hrun).
Defined.

Lemma one_yield_per_resolved_marker_witness :
  let run :=
    {| host := [];
       printed := [Exporting 1 "out" "mcstructure";
                   Failed 1 1 "mystructure:house" (10, 64, 10)
                     (OtherError "no encoder")];
       yielded := [1 # 1] |} in
  export_structures_from_structure_blocks (H := sample_runtime)
    (H0 := sample_host_io) marker_world marker_selection mcstructure_options []
    = (run, None) ∧
  yielded run
    = (λ i, progress i 1)
        <$> seq 1 (length (omap (candidate_record (H := sample_runtime)
                                   marker_world marker_selection)
                             (loaded_block_entities marker_world
                                (chunk_locations (Runtime := sample_runtime)
                                   marker_selection)))).
Proof.
  intros run.
  assert (Hrun : export_structures_from_structure_blocks (H := sample_runtime)
                   (H0 := sample_host_io) marker_world marker_selection
                   mcstructure_options [] = (run, None))
    by (vm_compute; reflexivity).
  split; [exact Hrun|].
  exact (proj1 (one_yield_per_resolved_marker (H := sample_runtime)
                  (H0 := sample_host_io) _ _ _ _ _ Hrun)).
Defined.
